(** * A shallow embedding of the WASM test harness (conftest.py)

    The harness wraps a WebAssembly instance: a bump allocator over the
    guest's linear memory, raw byte accessors on a ctypes view of that
    memory, the 24-byte string struct marshaller, the host imports
    (min/max intrinsics, the [write] import) and call-by-name dispatch.

    Python integers are modelled as [Z], bytes as [Byte.byte], [str] as a
    list of code points, IEEE floats as [spec_float], exceptions as an
    explicit error type, and the mutable objects shared by the closures
    (allocator cursor, linear memory, captured output) as one state record
    threaded through a state-and-exception monad. *)

From Stdlib Require Import ZArith Lia Bool Sorted.
From Stdlib Require Import Strings.Byte.
From Stdlib Require Import Floats.SpecFloat.
From stdpp Require Import base list strings gmap.
From Equations Require Import Equations.

Local Open Scope Z_scope.

(** ** Exceptions and results *)

(** The Python exception classes the harness can raise.  An
    [AssertionError] carries its message, as Python's does. *)
Inductive exn : Type :=
| AssertionError (msg : string)
| IndexError
| ZeroDivisionError
| StructError
| UnicodeEncodeError
| UnicodeDecodeError
| ValueError.

Inductive result (A : Type) : Type :=
| Ok (a : A)
| Raise (e : exn).
Arguments Ok {A} a.
Arguments Raise {A} e.

Definition is_ok {A} (r : result A) : bool :=
  match r with Ok _ => true | Raise _ => false end.

Definition result_map {A B} (f : A -> B) (r : result A) : result B :=
  match r with Ok a => Ok (f a) | Raise e => Raise e end.

(** The class of an exception, forgetting the message: what an
    [except <Class>] clause can dispatch on. *)
Inductive exn_class : Type :=
| CAssertionError | CIndexError | CZeroDivisionError | CStructError
| CUnicodeEncodeError | CUnicodeDecodeError | CValueError.

Definition class_of (e : exn) : exn_class :=
  match e with
  | AssertionError _ => CAssertionError
  | IndexError => CIndexError
  | ZeroDivisionError => CZeroDivisionError
  | StructError => CStructError
  | UnicodeEncodeError => CUnicodeEncodeError
  | UnicodeDecodeError => CUnicodeDecodeError
  | ValueError => CValueError
  end.

(** ** Constants *)

Definition STRING_STRUCT_SIZE : Z := 24.
Definition STRING_STRUCT_ALIGN : Z := 8.
Definition SSO_FLAG : Z := 0x8000000000000000.
Definition SSO_LEN_MASK : Z := 0x1F00000000000000.

(** ** Bump allocator *)

Record BumpAllocator : Type := mkAlloc { _ptr : Z }.

(** [aligned_alloc] returns the pointer and the updated allocator.
    Python's [%] raises on a zero divisor and otherwise takes the sign of
    the divisor, as [Z.modulo] does. *)
Definition aligned_alloc (align size : Z) (a : BumpAllocator)
  : result Z * BumpAllocator :=
  if align =? 0 then (Raise ZeroDivisionError, a)
  else
    let remainder := _ptr a mod align in
    let a1 := if negb (remainder =? 0)
              then mkAlloc (_ptr a + (align - remainder)) else a in
    let ptr := _ptr a1 in
    (Ok ptr, mkAlloc (_ptr a1 + size)).

Definition aligned_free (p : Z) (a : BumpAllocator) : Z * BumpAllocator := (1, a).

(** A sequence of [aligned_alloc (align, size)] requests run in order; the
    result lists each returned pointer with the size requested there.  The
    run stops at the first request that raises. *)
Fixpoint alloc_seq (reqs : list (Z * Z)) (a : BumpAllocator)
  : list (Z * Z) * BumpAllocator :=
  match reqs with
  | [] => ([], a)
  | (align, size) :: rest =>
      match aligned_alloc align size a with
      | (Ok p, a') =>
          let '(out, a'') := alloc_seq rest a' in ((p, size) :: out, a'')
      | (Raise _, a') => ([], a')
      end
  end.

(** [align] is a power of two that is at least 1. *)
Definition is_pow2 (n : Z) : Prop := exists k, 0 <= k /\ n = 2 ^ k.

Definition valid_request (r : Z * Z) : Prop := is_pow2 (fst r) /\ 0 <= snd r.

(** Two half-open ranges [p, p+s) share no address. *)
Definition ranges_disjoint (r1 r2 : Z * Z) : Prop :=
  forall x, ~ (fst r1 <= x < fst r1 + snd r1 /\ fst r2 <= x < fst r2 + snd r2).

(** An allocation ends before another one starts. *)
Definition ends_before (r1 r2 : Z * Z) : Prop :=
  0 <= snd r1 /\ fst r1 + snd r1 <= fst r2.

(** ** Bytes and Python strings *)

Definition byte_to_Z (b : byte) : Z := Z.of_N (Byte.to_N b).

Definition byte_of_Z (z : Z) : byte :=
  default x00 (Byte.of_N (Z.to_N (z mod 256))).

(** A Python [str]: a sequence of code points. *)
Definition pystr : Type := list Z.

(** Code points that UTF-8 can encode: the Unicode scalar values
    (everything up to U+10FFFF except the surrogates). *)
Definition is_scalar (c : Z) : Prop :=
  0 <= c < 0xD800 \/ 0xE000 <= c < 0x110000.

(** ** UTF-8 *)

(** [str.encode("utf-8")] on one code point; surrogates are refused. *)
Definition utf8_encode_cp (c : Z) : result (list byte) :=
  if c <? 0 then Raise UnicodeEncodeError
  else if c <? 0x80 then Ok [byte_of_Z c]
  else if c <? 0x800 then
    Ok [byte_of_Z (0xC0 + c / 64); byte_of_Z (0x80 + c mod 64)]
  else if c <? 0x10000 then
    if (0xD800 <=? c) && (c <? 0xE000) then Raise UnicodeEncodeError
    else Ok [byte_of_Z (0xE0 + c / 4096);
             byte_of_Z (0x80 + (c / 64) mod 64);
             byte_of_Z (0x80 + c mod 64)]
  else if c <? 0x110000 then
    Ok [byte_of_Z (0xF0 + c / 262144);
        byte_of_Z (0x80 + (c / 4096) mod 64);
        byte_of_Z (0x80 + (c / 64) mod 64);
        byte_of_Z (0x80 + c mod 64)]
  else Raise UnicodeEncodeError.

Fixpoint utf8_encode (s : pystr) : result (list byte) :=
  match s with
  | [] => Ok []
  | c :: rest =>
      match utf8_encode_cp c with
      | Ok bs => result_map (app bs) (utf8_encode rest)
      | Raise e => Raise e
      end
  end.

(** The [errors=] argument of [bytes.decode]. *)
Inductive errors_mode : Type := Strict | Replace.

(** A sequence in progress: how many continuation bytes follow the next
    one, the bits gathered so far, and the range the next byte must lie in (the range is
    narrower after E0, ED, F0 and F4, which excludes overlong forms,
    surrogates and values above U+10FFFF). *)
Record partial : Type := mkPartial { need : nat; acc : Z; lo : Z; hi : Z }.

Inductive lead : Type :=
| LChar (c : Z)
| LInvalid
| LLead (p : partial).

Definition start_byte (b : Z) : lead :=
  if b <? 0x80 then LChar b
  else if b <? 0xC2 then LInvalid
  else if b <? 0xE0 then LLead (mkPartial 0 (b - 0xC0) 0x80 0xBF)
  else if b <? 0xF0 then
    LLead (mkPartial 1 (b - 0xE0)
             (if b =? 0xE0 then 0xA0 else 0x80)
             (if b =? 0xED then 0x9F else 0xBF))
  else if b <? 0xF5 then
    LLead (mkPartial 2 (b - 0xF0)
             (if b =? 0xF0 then 0x90 else 0x80)
             (if b =? 0xF4 then 0x8F else 0xBF))
  else LInvalid.

(** What a decoding error does: raise, or emit U+FFFD and go on. *)
Definition on_error (mode : errors_mode) (k : result pystr) : result pystr :=
  match mode with
  | Strict => Raise UnicodeDecodeError
  | Replace => result_map (cons 0xFFFD) k
  end.

(** The decoder reads one byte at a time.  An ill-formed sequence is
    reported up to the byte that breaks it (one error for each maximal
    ill-formed prefix), and that byte is then read again as the start of
    the next sequence. *)
Fixpoint utf8_decode_from (mode : errors_mode) (st : option partial)
    (bs : list byte) : result pystr :=
  match bs with
  | [] =>
      match st with
      | None => Ok []
      | Some _ => on_error mode (Ok [])
      end
  | b :: rest =>
      let fresh :=
        match start_byte (byte_to_Z b) with
        | LChar c => result_map (cons c) (utf8_decode_from mode None rest)
        | LInvalid => on_error mode (utf8_decode_from mode None rest)
        | LLead p => utf8_decode_from mode (Some p) rest
        end in
      match st with
      | None => fresh
      | Some p =>
          if (lo p <=? byte_to_Z b) && (byte_to_Z b <=? hi p) then
            let acc' := acc p * 64 + (byte_to_Z b - 0x80) in
            match need p with
            | O => result_map (cons acc') (utf8_decode_from mode None rest)
            | S n =>
                utf8_decode_from mode (Some (mkPartial n acc' 0x80 0xBF)) rest
            end
          else on_error mode fresh
      end
  end.

Definition utf8_decode (mode : errors_mode) (bs : list byte) : result pystr :=
  utf8_decode_from mode None bs.

(** The text [bytes.decode("utf-8", errors="replace")] produces; by
    [utf8_decode_replace] below the [Raise] branch is never taken. *)
Definition decode_replace (bs : list byte) : pystr :=
  match utf8_decode Replace bs with
  | Ok t => t
  | Raise _ => []
  end.

(** ** struct.pack / struct.unpack, formats "<q" and "<Q" *)

Fixpoint Z_to_le (n : nat) (v : Z) : list byte :=
  match n with
  | O => []
  | S n' => byte_of_Z (v mod 256) :: Z_to_le n' (v / 256)
  end.

Fixpoint le_to_Z (bs : list byte) : Z :=
  match bs with
  | [] => 0
  | b :: rest => byte_to_Z b + 256 * le_to_Z rest
  end.

Definition pack_q (v : Z) : result (list byte) :=
  if (- 2 ^ 63 <=? v) && (v <? 2 ^ 63) then Ok (Z_to_le 8 (v mod 2 ^ 64))
  else Raise StructError.

Definition unpack_Q (raw : list byte) : result Z :=
  if (length raw =? 8)%nat then Ok (le_to_Z raw) else Raise StructError.

Definition _to_signed_64 (v : Z) : Z :=
  if 2 ^ 63 <=? v then v - 2 ^ 64 else v.

Definition unpack_q (raw : list byte) : result Z :=
  result_map _to_signed_64 (unpack_Q raw).

(** ** The ctypes view of linear memory *)

(** Python's slice normalisation for step 1 over a sequence of length [n]:
    a negative bound counts from the end, and both bounds are clamped to
    [0, n]. *)
Definition slice_adjust (n v : Z) : Z :=
  if v <? 0 then Z.max 0 (v + n) else Z.min v n.

(** CPython first saturates slice bounds to the machine word.  For an
    array shorter than 2^63 bytes this changes nothing (lemma
    [slice_unpack_adjust] below), so [buf_getslice] works on the
    unsaturated bounds. *)
Definition slice_unpack (v : Z) : Z := Z.max (- 2 ^ 63) (Z.min (2 ^ 63 - 1) v).

(** [buf[start:stop]] *)
Definition buf_getslice (buf : list byte) (start stop : Z) : list byte :=
  let n := Z.of_nat (length buf) in
  let a := slice_adjust n start in
  let b := slice_adjust n stop in
  take (Z.to_nat (b - a)) (drop (Z.to_nat a) buf).

(** [buf[idx] = b]: a negative index counts from the end; an index
    outside the array raises [IndexError]. *)
Definition buf_setitem (buf : list byte) (idx : Z) (b : byte)
  : result (list byte) :=
  let n := Z.of_nat (length buf) in
  let i := if idx <? 0 then idx + n else idx in
  if (i <? 0) || (n <=? i) then Raise IndexError
  else Ok (<[Z.to_nat i := b]> buf).

(** The array after storing [data] from index [q] on, for as long as the
    indices stay inside the array. *)
Definition splice (buf : list byte) (q : nat) (data : list byte) : list byte :=
  take q buf ++ take (length buf - q) data ++ drop (q + length data) buf.

(** Whether [data] stored from index [q] on stays inside an array of
    length [n]. *)
Definition write_fits (n q : Z) (data : list byte) : bool :=
  match data with
  | [] => true
  | _ => q + Z.of_nat (length data) <=? n
  end.

(** ** Session state *)

(** The objects the harness mutates during a session: the guest's linear
    memory, the allocator, the captured-output list shared by the [write]
    import and the wrapper, whether [_inst_wrapper[0]] has been set, and
    the host's error stream (writing to a closed stream raises).
    [mem_reads] is a trace of the [read_bytes] calls made so far, as
    (pointer, length) pairs; no code reads it back. *)
Record host : Type := mkHost {
  memory : list byte;
  alloc : BumpAllocator;
  captured_stdout : list pystr;
  inst_wrapper : bool;
  stderr_closed : bool;
  stderr_text : list pystr;
  mem_reads : list (Z * Z)
}.

Definition set_memory (m : list byte) (h : host) : host :=
  mkHost m (alloc h) (captured_stdout h) (inst_wrapper h)
         (stderr_closed h) (stderr_text h) (mem_reads h).

Definition set_alloc (a : BumpAllocator) (h : host) : host :=
  mkHost (memory h) a (captured_stdout h) (inst_wrapper h)
         (stderr_closed h) (stderr_text h) (mem_reads h).

Definition set_captured_stdout (l : list pystr) (h : host) : host :=
  mkHost (memory h) (alloc h) l (inst_wrapper h)
         (stderr_closed h) (stderr_text h) (mem_reads h).

Definition set_stderr_text (l : list pystr) (h : host) : host :=
  mkHost (memory h) (alloc h) (captured_stdout h) (inst_wrapper h)
         (stderr_closed h) l (mem_reads h).

Definition set_mem_reads (l : list (Z * Z)) (h : host) : host :=
  mkHost (memory h) (alloc h) (captured_stdout h) (inst_wrapper h)
         (stderr_closed h) (stderr_text h) l.

(** State and exceptions: a raise keeps the mutations made before it. *)
Definition M (A : Type) : Type := host -> result A * host.

Definition ret {A} (a : A) : M A := fun h => (Ok a, h).

Definition raise {A} (e : exn) : M A := fun h => (Raise e, h).

Definition bind {A B} (m : M A) (f : A -> M B) : M B :=
  fun h =>
    match m h with
    | (Ok a, h') => f a h'
    | (Raise e, h') => (Raise e, h')
    end.

Definition lift {A} (r : result A) : M A := fun h => (r, h).

(** [try: body / except Exception: handler] *)
Definition try_except {A} (body : M A) (handler : exn -> M A) : M A :=
  fun h =>
    match body h with
    | (Ok a, h') => (Ok a, h')
    | (Raise e, h') => handler e h'
    end.

Notation "x <- m ;; k" := (bind m (fun x => k))
  (at level 100, m at next level, right associativity).
Notation "m ;;; k" := (bind m (fun _ => k))
  (at level 100, right associativity).

(** ** WasmInstance: raw memory helpers *)

Definition read_bytes (ptr length : Z) : M (list byte) :=
  fun h =>
    (Ok (buf_getslice (memory h) ptr (ptr + length)),
     set_mem_reads (mem_reads h ++ [(ptr, length)]) h).

Definition store_byte (idx : Z) (b : byte) : M unit :=
  fun h =>
    match buf_setitem (memory h) idx b with
    | Ok m => (Ok tt, set_memory m h)
    | Raise e => (Raise e, h)
    end.

(** [for i, b in enumerate(data): buf[ptr + i] = b], from index [i] on. *)
Fixpoint write_bytes_from (ptr i : Z) (data : list byte) : M unit :=
  match data with
  | [] => ret tt
  | b :: rest => store_byte (ptr + i) b ;;; write_bytes_from ptr (i + 1) rest
  end.

Definition write_bytes (ptr : Z) (data : list byte) : M unit :=
  write_bytes_from ptr 0 data.

Definition read_i64_le (ptr : Z) : M Z :=
  raw <- read_bytes ptr 8 ;; lift (unpack_q raw).

Definition read_u64_le (ptr : Z) : M Z :=
  raw <- read_bytes ptr 8 ;; lift (unpack_Q raw).

Definition write_i64_le (ptr value : Z) : M unit :=
  packed <- lift (pack_q value) ;; write_bytes ptr packed.

(** ** WasmInstance: allocator wrapper and string structs *)

Definition alloc_aligned (align size : Z) : M Z :=
  fun h =>
    let '(r, a) := aligned_alloc align size (alloc h) in (r, set_alloc a h).

Definition write_string_struct (s : pystr) : M Z :=
  encoded <- lift (utf8_encode s) ;;
  let data_len := Z.of_nat (length encoded) in
  data_ptr <- alloc_aligned 1 (data_len + 1) ;;
  write_bytes data_ptr (encoded ++ [x00]) ;;;
  struct_ptr <- alloc_aligned STRING_STRUCT_ALIGN STRING_STRUCT_SIZE ;;
  write_i64_le struct_ptr data_ptr ;;;
  write_i64_le (struct_ptr + 8) data_len ;;;
  write_i64_le (struct_ptr + 16) (data_len + 1) ;;;
  ret struct_ptr.

Definition alloc_string_struct : M Z :=
  struct_ptr <- alloc_aligned STRING_STRUCT_ALIGN STRING_STRUCT_SIZE ;;
  write_bytes struct_ptr (replicate (Z.to_nat STRING_STRUCT_SIZE) x00) ;;;
  ret struct_ptr.

Definition read_string_struct (struct_ptr : Z) : M pystr :=
  capacity <- read_u64_le (struct_ptr + 16) ;;
  dl <- (if negb (Z.land capacity SSO_FLAG =? 0) then
           ret (struct_ptr, Z.shiftr (Z.land capacity SSO_LEN_MASK) 56)
         else
           data_ptr <- read_i64_le struct_ptr ;;
           length <- read_i64_le (struct_ptr + 8) ;;
           ret (data_ptr, length)) ;;
  let '(data_ptr, length) := dl in
  if length <=? 0 then ret []
  else
    raw <- read_bytes data_ptr length ;;
    lift (utf8_decode Strict raw).

(** ** Calling exports by name *)

Inductive pyval : Type :=
| VInt (z : Z)
| VFloat (f : spec_float)
| VNone.

(** What [instance.exports(store).get(name)] can return besides [None]. *)
Inductive export : Type :=
| ExFunc (f : list pyval -> M pyval)
| ExMemory
| ExGlobal (v : pyval)
| ExTable.

Definition call (exports : gmap string export) (name : string)
    (args : list pyval) : M pyval :=
  match exports !! name with
  | None => raise (AssertionError ("WASM export '" +:+ name +:+ "' not found"))
  | Some (ExFunc fn) => fn args
  | Some _ => raise (AssertionError ("'" +:+ name +:+ "' is not a function"))
  end.

(** ** Host imports *)

(** Python's [x > y] on floats: false whenever an operand is NaN. *)
Definition float_gt (x y : spec_float) : bool :=
  match SFcompare x y with Some Gt => true | _ => false end.

(** Python's [x == y] on floats: false whenever an operand is NaN. *)
Definition float_eq (x y : spec_float) : bool := SFeqb x y.

Definition fminf_fn (x y : spec_float) : spec_float := if float_gt x y then y else x.
Definition fmaxf_fn (x y : spec_float) : spec_float := if float_gt x y then x else y.
Definition fmin_fn (x y : spec_float) : spec_float := if float_gt x y then y else x.
Definition fmax_fn (x y : spec_float) : spec_float := if float_gt x y then x else y.

Definition aligned_alloc_fn (align size : Z) : M Z := alloc_aligned align size.

Definition stderr_write (text : pystr) : M unit :=
  fun h =>
    if stderr_closed h then (Raise ValueError, h)
    else (Ok tt, set_stderr_text (stderr_text h ++ [text]) h).

(** The body of the [try] block of [write_fn]: [Some v] when it executes
    [return v], [None] when control falls out of the block. *)
Definition write_fn_try (fd ptr length : Z) : M (option Z) :=
  fun h =>
    if negb (inst_wrapper h) then (Ok (Some (-1)), h)
    else
      (data <- read_bytes ptr length ;;
       text <- lift (utf8_decode Replace data) ;;
       if fd =? 1 then
         (fun h' => (Ok (Some length),
                     set_captured_stdout (captured_stdout h' ++ [text]) h'))
       else if fd =? 2 then
         stderr_write text ;;; ret (Some length)
       else ret None) h.

Definition write_fn (fd ptr length : Z) : M Z :=
  if length =? 0 then ret 0
  else
    r <- try_except (write_fn_try fd ptr length) (fun _ => ret None) ;;
    match r with
    | Some v => ret v
    | None => ret (-1)
    end.

(** [write_fn] called with [fd = 1] on each (pointer, length) in turn. *)
Fixpoint write_all (calls : list (Z * Z)) : M (list Z) :=
  match calls with
  | [] => ret []
  | (ptr, length) :: rest =>
      r <- write_fn 1 ptr length ;;
      rs <- write_all rest ;;
      ret (r :: rs)
  end.

(** The text that a [write] call with [fd = 1] logs. *)
Definition logged_text (m : list byte) (c : Z * Z) : pystr :=
  decode_replace (buf_getslice m (fst c) (fst c + snd c)).

(** The state after further [read_bytes] calls [rs]. *)
Definition log_reads (rs : list (Z * Z)) (h : host) : host :=
  set_mem_reads (mem_reads h ++ rs) h.

(** The values [read_u64_le] and [read_i64_le] return on memory [m]. *)
Definition peek_u64 (m : list byte) (ptr : Z) : result Z :=
  unpack_Q (buf_getslice m ptr (ptr + 8)).

Definition peek_i64 (m : list byte) (ptr : Z) : result Z :=
  unpack_q (buf_getslice m ptr (ptr + 8)).

(** ** Reference definitions, written from the specification

    These follow the wording of the specification and are compared with
    the definitions above, which follow the source. *)

(** "return left operand if left < right, else return right operand" *)
Definition float_lt (x y : spec_float) : bool :=
  match SFcompare x y with Some Lt => true | _ => false end.

Definition spec_min (x y : spec_float) : spec_float := if float_lt x y then x else y.

(** "the mirrored rule for max" *)
Definition spec_max (x y : spec_float) : spec_float := if float_gt x y then x else y.

(** "bits 56-60 of that field" *)
Definition bits_56_60 (c : Z) : Z :=
  Z.b2z (Z.testbit c 56) + 2 * Z.b2z (Z.testbit c 57)
  + 4 * Z.b2z (Z.testbit c 58) + 8 * Z.b2z (Z.testbit c 59)
  + 16 * Z.b2z (Z.testbit c 60).

(** "read the capacity field at offset 16.  If its top bit is set, length
    comes from bits 56-60 of that field and data starts at the struct's
    own base; else read the 8-byte pointer at offset 0 and 8-byte length
    at offset 8.  Length <= 0 decodes to empty.  Otherwise read that many
    bytes from the resolved pointer and decode as UTF-8." *)
Definition decode_spec (struct_ptr : Z) : M pystr :=
  capacity <- read_u64_le (struct_ptr + 16) ;;
  dl <- (if Z.testbit capacity 63 then
           ret (struct_ptr, bits_56_60 capacity)
         else
           data_ptr <- read_i64_le struct_ptr ;;
           length <- read_i64_le (struct_ptr + 8) ;;
           ret (data_ptr, length)) ;;
  if snd dl <=? 0 then ret []
  else
    raw <- read_bytes (fst dl) (snd dl) ;;
    lift (utf8_decode Strict raw).

(** ** Helpers and loops of the test files *)

(** [_i32_wrap] of test_stress.py.  Python's [&] on a negative integer
    works on its two's complement, as [Z.land] does. *)
Definition _i32_wrap (x : Z) : Z :=
  let x := Z.land x 0xFFFFFFFF in
  if 0x80000000 <=? x then x - 0x100000000 else x.

(** [_gcd] of test_consistency.py and test_stress.py: Euclid's loop on
    the absolute values.  The loop runs while [b] is non-zero; each round
    makes [|b|] smaller. *)
Equations? gcd_loop (a b : Z) : Z by wf (Z.abs_nat b) lt :=
  gcd_loop a b with Z.eq_dec b 0 => {
    | left _ := a ;
    | right _ := gcd_loop b (a mod b) }.
Proof.
  pose proof (Z.mod_bound_or a b n). lia.
Qed.

Definition _gcd (a b : Z) : Z := gcd_loop (Z.abs a) (Z.abs b).

(** The loop of test_200_sequential_string_allocations: every string is
    written in turn and the pointers are collected. *)
Fixpoint write_strings (ss : list pystr) : M (list Z) :=
  match ss with
  | [] => ret []
  | s :: rest =>
      p <- write_string_struct s ;;
      ps <- write_strings rest ;;
      ret (p :: ps)
  end.

(** The loop of test_300_alloc_string_struct_non_overlapping. *)
Fixpoint alloc_structs (n : nat) : M (list Z) :=
  match n with
  | O => ret []
  | S n' =>
      p <- alloc_string_struct ;;
      ps <- alloc_structs n' ;;
      ret (p :: ps)
  end.

(** Memory [m'] holds the same bytes as [m] at every offset below [c]. *)
Definition agree_below (c : Z) (m m' : list byte) : Prop :=
  length m' = length m
  /\ forall a l, 0 <= a -> 0 <= l -> a + l <= c ->
                 buf_getslice m' a (a + l) = buf_getslice m a (a + l).

(** Memory [m] holds at [p] a heap-form struct for the bytes [enc]: the
    three fields read as (data pointer, length, length + 1) and the data
    pointer leads to [enc] followed by NUL, all of it below [p + 24]. *)
Definition holds_string (m : list byte) (p : Z) (enc : list byte) : Prop :=
  exists dp,
    let n := Z.of_nat (length enc) in
    0 <= dp /\ dp + n + 1 <= p /\ n + 1 < 2 ^ 63
    /\ peek_i64 m p = Ok dp
    /\ peek_i64 m (p + 8) = Ok n
    /\ peek_u64 m (p + 16) = Ok (n + 1)
    /\ buf_getslice m dp (dp + (n + 1)) = enc ++ [x00].

(** A sequence in progress is well started: [pre] are the bytes read so
    far, and whichever [n + 1] continuation bytes complete it in the
    expected ranges, the code point obtained encodes as [pre] followed by
    those bytes. *)
Fixpoint well_started (n : nat) (pre : list byte) (acc lo hi : Z) : Prop :=
  match n with
  | O =>
      forall b, lo <= byte_to_Z b <= hi ->
        utf8_encode_cp (acc * 64 + (byte_to_Z b - 0x80)) = Ok (pre ++ [b])
  | S n' =>
      forall b, lo <= byte_to_Z b <= hi ->
        well_started n' (pre ++ [b]) (acc * 64 + (byte_to_Z b - 0x80)) 0x80 0xBF
  end.

(** * Properties *)

(** ** The state-and-exception monad *)

Section MonadLaws.
Context {A B C : Type}.

Lemma bind_ret_l (a : A) (f : A -> M B) h : bind (ret a) f h = f a h.
Proof. reflexivity. Qed.

Lemma bind_ret_r (m : M A) h : bind m ret h = m h.
Proof. unfold bind, ret. destruct (m h) as [[a|e] h']; reflexivity. Qed.

Lemma bind_assoc (m : M A) (f : A -> M B) (g : B -> M C) h :
  bind (bind m f) g h = bind m (fun x => bind (f x) g) h.
Proof. unfold bind. destruct (m h) as [[a|e] h']; reflexivity. Qed.

(** A raise skips the rest and keeps the state reached so far. *)
Lemma bind_raise (e : exn) (f : A -> M B) h : bind (raise e) f h = (Raise e, h).
Proof. reflexivity. Qed.

Lemma try_except_raise (e : exn) (handler : exn -> M A) h :
  try_except (raise e) handler h = handler e h.
Proof. reflexivity. Qed.
End MonadLaws.

(** ** Bump allocator *)

Lemma is_pow2_pos n : is_pow2 n -> 1 <= n.
Proof.
  intros [k [Hk ->]]. pose proof (Z.pow_pos_nonneg 2 k). lia.
Qed.

Lemma aligned_alloc_spec align size a :
  1 <= align ->
  exists p, aligned_alloc align size a = (Ok p, mkAlloc (p + size))
            /\ _ptr a <= p < _ptr a + align /\ p mod align = 0.
Proof.
  intros Ha. unfold aligned_alloc.
  destruct (Z.eqb_spec align 0) as [|_]; [lia|].
  pose proof (Z.mod_pos_bound (_ptr a) align ltac:(lia)) as Hb.
  destruct (Z.eqb_spec (_ptr a mod align) 0) as [E|E]; simpl.
  - exists (_ptr a). repeat split; lia.
  - exists (_ptr a + (align - _ptr a mod align)). repeat split; try lia.
    rewrite (Z.div_mod (_ptr a) align) at 1 by lia.
    replace (align * (_ptr a / align) + _ptr a mod align + (align - _ptr a mod align))
      with ((_ptr a / align + 1) * align) by lia.
    apply Z.mod_mul. lia.
Qed.

(** An aligned cursor is returned as it is. *)
Lemma aligned_alloc_aligned align size a :
  1 <= align -> _ptr a mod align = 0 ->
  aligned_alloc align size a = (Ok (_ptr a), mkAlloc (_ptr a + size)).
Proof.
  intros Ha Hm. unfold aligned_alloc.
  destruct (Z.eqb_spec align 0) as [|_]; [lia|].
  rewrite Hm. reflexivity.
Qed.

Lemma alloc_seq_sorted reqs a :
  Forall valid_request reqs ->
  let out := fst (alloc_seq reqs a) in
  map snd out = map snd reqs
  /\ Forall (fun r => _ptr a <= fst r) out
  /\ StronglySorted ends_before out.
Proof.
  intros Hv. revert a. induction Hv as [|[align size] reqs [Hp Hs] _ IH]; intros a.
  - simpl. repeat split; constructor.
  - simpl in Hp, Hs. apply is_pow2_pos in Hp.
    destruct (aligned_alloc_spec align size a Hp) as (p & E & Hr & _).
    simpl. rewrite E. specialize (IH (mkAlloc (p + size))).
    destruct (alloc_seq reqs (mkAlloc (p + size))) as [out a''].
    simpl in IH |- *. destruct IH as (IH1 & IH2 & IH3).
    repeat split.
    + f_equal. exact IH1.
    + constructor; [simpl; lia|].
      eapply Forall_impl; [exact IH2|]. intros r Hr'. simpl in Hr'. lia.
    + constructor; [exact IH3|].
      eapply Forall_impl; [exact IH2|]. intros r Hr'. unfold ends_before. simpl in *. lia.
Qed.

Lemma StronglySorted_lookup_lt {A} (R : A -> A -> Prop) (l : list A) i j x y :
  StronglySorted R l -> (i < j)%nat -> l !! i = Some x -> l !! j = Some y -> R x y.
Proof.
  intros Hs. revert i j. induction Hs as [|a l Hs IH Hall]; intros i j Hij Hi Hj.
  - discriminate.
  - destruct j as [|j]; [lia|]. destruct i as [|i]; simpl in *.
    + injection Hi as <-. rewrite Forall_forall in Hall. apply Hall.
      eapply list_elem_of_lookup_2. exact Hj.
    + apply (IH i j); [lia|assumption..].
Qed.

(** C4. For every sequence of [aligned_alloc] calls from a fresh cursor
    [c], each with a power-of-two alignment and a non-negative size, every
    call returns, the returned pointers are non-decreasing, and the ranges
    [p, p+size) of any two calls with positive size share no address. *)
Theorem alloc_seq_monotone_disjoint (reqs : list (Z * Z)) (c : Z) :
  Forall valid_request reqs ->
  let out := fst (alloc_seq reqs (mkAlloc c)) in
  map snd out = map snd reqs
  /\ (forall i j r1 r2, (i <= j)%nat ->
        out !! i = Some r1 -> out !! j = Some r2 -> fst r1 <= fst r2)
  /\ (forall i j r1 r2, i <> j ->
        out !! i = Some r1 -> out !! j = Some r2 ->
        0 < snd r1 -> 0 < snd r2 -> ranges_disjoint r1 r2).
Proof.
  intros Hv out.
  destruct (alloc_seq_sorted reqs (mkAlloc c) Hv) as (Hm & _ & Hs).
  fold out in Hm, Hs. split; [exact Hm|]. split.
  - intros i j r1 r2 Hij Hi Hj.
    destruct (decide (i = j)) as [->|Hne].
    + rewrite Hi in Hj. injection Hj as <-. lia.
    + pose proof (StronglySorted_lookup_lt _ _ i j r1 r2 Hs ltac:(lia) Hi Hj) as [? ?].
      lia.
  - intros i j r1 r2 Hne Hi Hj H1 H2 x [Hx1 Hx2].
    destruct (decide (i < j)%nat) as [Hlt|Hge].
    + pose proof (StronglySorted_lookup_lt _ _ i j r1 r2 Hs Hlt Hi Hj) as [? ?]. lia.
    + pose proof (StronglySorted_lookup_lt _ _ j i r2 r1 Hs ltac:(lia) Hj Hi) as [? ?]. lia.
Qed.

Lemma alloc_seq_monotone_disjoint_witness :
  let reqs := [(1, 0); (8, 24); (4, 3); (16, 5)] in
  let out := fst (alloc_seq reqs (mkAlloc 1025)) in
  out = [(1025, 0); (1032, 24); (1056, 3); (1072, 5)]
  /\ map snd out = map snd reqs
  /\ (forall i j r1 r2, (i <= j)%nat ->
        out !! i = Some r1 -> out !! j = Some r2 -> fst r1 <= fst r2)
  /\ (forall i j r1 r2, i <> j ->
        out !! i = Some r1 -> out !! j = Some r2 ->
        0 < snd r1 -> 0 < snd r2 -> ranges_disjoint r1 r2).
Proof.
  split; [reflexivity|].
  apply (alloc_seq_monotone_disjoint [(1, 0); (8, 24); (4, 3); (16, 5)] 1025).
  repeat constructor; simpl; try lia.
  - exists 0; split; [lia | reflexivity].
  - exists 3; split; [lia | reflexivity].
  - exists 2; split; [lia | reflexivity].
  - exists 4; split; [lia | reflexivity].
Defined.

(** C8 as stated fails: from the unaligned base 1 the first call rounds
    the cursor up and returns 8, not 1. *)
Lemma aligned_alloc_twice_unaligned :
  let '(r1, a1) := aligned_alloc 8 24 (mkAlloc 1) in
  let '(r2, _) := aligned_alloc 8 24 a1 in
  r1 = Ok 8 /\ r2 = Ok 32 /\ r1 <> Ok 1 /\ r2 <> Ok (1 + 24).
Proof. simpl. repeat split; intros [=]. Qed.

(** C8, amended. For every base [B] that is a multiple of 8, two
    successive calls [aligned_alloc(8, 24)] on an allocator seeded with
    cursor [B] return [B] and then [B + 24]. *)
Theorem aligned_alloc_twice (B : Z) :
  B mod 8 = 0 ->
  exists a1 a2,
    aligned_alloc 8 24 (mkAlloc B) = (Ok B, a1)
    /\ aligned_alloc 8 24 a1 = (Ok (B + 24), a2).
Proof.
  intros HB. exists (mkAlloc (B + 24)), (mkAlloc (B + 24 + 24)). split.
  - apply (aligned_alloc_aligned 8 24 (mkAlloc B)); [lia | exact HB].
  - apply (aligned_alloc_aligned 8 24 (mkAlloc (B + 24))); [lia|].
    simpl. rewrite <- Z.add_mod_idemp_l by lia. rewrite HB. reflexivity.
Qed.

Lemma aligned_alloc_twice_witness :
  exists a1 a2,
    aligned_alloc 8 24 (mkAlloc 65536) = (Ok 65536, a1)
    /\ aligned_alloc 8 24 a1 = (Ok (65536 + 24), a2).
Proof. apply (aligned_alloc_twice 65536). reflexivity. Defined.

(** ** Min/max imports *)

Lemma float_gt_nan_l y : float_gt S754_nan y = false.
Proof. reflexivity. Qed.

Lemma float_gt_nan_r x : float_gt x S754_nan = false.
Proof. destruct x; reflexivity. Qed.

(** The max imports are the specification's mirrored rule. *)
Lemma fmax_fn_spec_max x y : fmax_fn x y = spec_max x y /\ fmaxf_fn x y = spec_max x y.
Proof. split; reflexivity. Qed.

(** C1 as stated fails for min: with NaN on the left the min imports
    return the NaN, not the right operand (5.0 here), and with NaN on the
    right they return the left operand, not NaN.  The specification's
    rule gives the opposite answers. *)
Lemma fmin_fn_nan_table_fails :
  let five := S754_finite false 5629499534213120 (-50) in
  fmin_fn S754_nan five = S754_nan /\ fmin_fn S754_nan five <> five
  /\ fmin_fn five S754_nan = five /\ fmin_fn five S754_nan <> S754_nan
  /\ fminf_fn S754_nan five <> five /\ fminf_fn five S754_nan <> S754_nan
  /\ spec_min S754_nan five = five /\ spec_min five S754_nan = S754_nan.
Proof. simpl. repeat split; discriminate. Qed.

Lemma float_eq_refl x : x <> S754_nan -> float_eq x x = true.
Proof.
  unfold float_eq, SFeqb. destruct x as [s|s| |s m e]; cbn; intros Hn;
    try reflexivity; try congruence.
  - destruct s; reflexivity.
  - destruct s; rewrite Z.compare_refl, Pos.compare_cont_refl; reflexivity.
Qed.

(** C1, amended. The max imports return the left operand if
    left > right and the right operand otherwise; the min imports return
    the right operand if left > right and the left operand otherwise.  So
    for all non-NaN [x] and [y]: [max(NaN, y) == y], [max(x, NaN)] is
    NaN, [min(NaN, y)] is NaN and [min(x, NaN) == x].  The 32-bit and the
    64-bit imports behave alike.  ([==] is float equality; the results
    are moreover the very operands.) *)
Theorem min_max_nan_table (x y : spec_float) :
  (fmax_fn x y = (if float_gt x y then x else y)
   /\ fmin_fn x y = (if float_gt x y then y else x)
   /\ fmaxf_fn x y = (if float_gt x y then x else y)
   /\ fminf_fn x y = (if float_gt x y then y else x))
  /\ (x <> S754_nan -> y <> S754_nan ->
      (float_eq (fmax_fn S754_nan y) y = true /\ fmax_fn S754_nan y = y
       /\ fmax_fn x S754_nan = S754_nan
       /\ fmin_fn S754_nan y = S754_nan
       /\ float_eq (fmin_fn x S754_nan) x = true /\ fmin_fn x S754_nan = x)
      /\ (float_eq (fmaxf_fn S754_nan y) y = true /\ fmaxf_fn S754_nan y = y
          /\ fmaxf_fn x S754_nan = S754_nan
          /\ fminf_fn S754_nan y = S754_nan
          /\ float_eq (fminf_fn x S754_nan) x = true /\ fminf_fn x S754_nan = x)).
Proof.
  split; [repeat split|].
  intros Hx Hy. unfold fmax_fn, fmin_fn, fmaxf_fn, fminf_fn.
  rewrite float_gt_nan_l, float_gt_nan_r.
  pose proof (float_eq_refl x Hx). pose proof (float_eq_refl y Hy).
  repeat split; assumption.
Qed.

Lemma min_max_nan_table_witness :
  let five := S754_finite false 5629499534213120 (-50) in
  let one := S754_finite false 4503599627370496 (-52) in
  float_eq (fmax_fn S754_nan one) one = true
  /\ fmax_fn five S754_nan = S754_nan
  /\ fmin_fn S754_nan one = S754_nan
  /\ float_eq (fmin_fn five S754_nan) five = true.
Proof.
  intros five one.
  destruct (min_max_nan_table five one) as (_ & H).
  destruct (H ltac:(discriminate) ltac:(discriminate))
    as ((H1 & _ & H2 & H3 & H4 & _) & _).
  repeat split; assumption.
Defined.

(** ** Calling exports by name *)

Lemma call_missing exports name args h :
  exports !! name = None ->
  call exports name args h
  = (Raise (AssertionError ("WASM export '" +:+ name +:+ "' not found")), h).
Proof. intros E. unfold call. rewrite E. reflexivity. Qed.

Lemma call_not_func exports name args h e :
  exports !! name = Some e -> (forall fn, e <> ExFunc fn) ->
  call exports name args h
  = (Raise (AssertionError ("'" +:+ name +:+ "' is not a function")), h).
Proof.
  intros E Hn. unfold call. rewrite E.
  destruct e; try reflexivity. exfalso. eapply Hn. reflexivity.
Qed.

Lemma call_func exports name args h fn :
  exports !! name = Some (ExFunc fn) -> call exports name args h = fn args h.
Proof. intros E. unfold call. rewrite E. reflexivity. Qed.

(** C7 as stated fails: a missing export and a non-function export both
    fail with an [AssertionError]; the two exceptions have one class. *)
Lemma call_failures_one_class :
  let exports : gmap string export := {[ "memory" := ExMemory ]} in
  let h := mkHost [] (mkAlloc 0) [] true false [] [] in
  exists e1 e2,
    fst (call exports "nope" [] h) = Raise e1
    /\ fst (call exports "memory" [] h) = Raise e2
    /\ class_of e1 = class_of e2.
Proof.
  intros exports h.
  exists (AssertionError "WASM export 'nope' not found"),
         (AssertionError "'memory' is not a function").
  repeat split.
Qed.

(** C7, amended. Calling a guest export by name fails with an
    [AssertionError] in both cases, leaving the state as it was: with the
    message "WASM export '<name>' not found" when no export of that name
    exists, and with the message "'<name>' is not a function" when the
    name resolves to a non-function export.  The two messages always
    differ; the exception class is the same. *)
Theorem call_failures (exports : gmap string export) (name : string)
    (args : list pyval) (h : host) :
  (exports !! name = None ->
   call exports name args h
   = (Raise (AssertionError ("WASM export '" +:+ name +:+ "' not found")), h))
  /\ (forall e, exports !! name = Some e -> (forall fn, e <> ExFunc fn) ->
      call exports name args h
      = (Raise (AssertionError ("'" +:+ name +:+ "' is not a function")), h))
  /\ "WASM export '" +:+ name +:+ "' not found"
     <> "'" +:+ name +:+ "' is not a function".
Proof.
  split; [apply call_missing|]. split; [intros e; apply call_not_func|].
  simpl. discriminate.
Qed.

Lemma call_failures_witness :
  let exports : gmap string export := {[ "memory" := ExMemory ]} in
  let h := mkHost [] (mkAlloc 0) [] true false [] [] in
  call exports "nope" [] h
  = (Raise (AssertionError "WASM export 'nope' not found"), h)
  /\ call exports "memory" [] h
     = (Raise (AssertionError "'memory' is not a function"), h).
Proof.
  intros exports h.
  destruct (call_failures exports "nope" [] h) as (H1 & _ & _).
  destruct (call_failures exports "memory" [] h) as (_ & H2 & _).
  split.
  - apply H1. reflexivity.
  - apply (H2 ExMemory); [reflexivity | intros fn; discriminate].
Defined.

(** ** Bytes and integers *)

Lemma byte_to_Z_range b : 0 <= byte_to_Z b < 256.
Proof.
  unfold byte_to_Z. pose proof (Byte.to_N_bounded b). lia.
Qed.

Lemma byte_to_of_Z z : byte_to_Z (byte_of_Z z) = z mod 256.
Proof.
  unfold byte_to_Z, byte_of_Z.
  pose proof (Z.mod_pos_bound z 256 ltac:(lia)) as Hr.
  destruct (Byte.of_N (Z.to_N (z mod 256))) as [b|] eqn:E.
  - apply Byte.to_of_N in E. simpl. rewrite E. lia.
  - apply Byte.of_N_None_iff in E. lia.
Qed.

Lemma byte_to_of_Z_small z : 0 <= z < 256 -> byte_to_Z (byte_of_Z z) = z.
Proof. intros H. rewrite byte_to_of_Z. apply Z.mod_small. exact H. Qed.

Lemma byte_to_Z_x00 : byte_to_Z x00 = 0.
Proof. reflexivity. Qed.

Lemma length_Z_to_le n v : length (Z_to_le n v) = n.
Proof. revert v. induction n as [|n IH]; intros v; simpl; [|rewrite IH]; reflexivity. Qed.

Lemma le_to_Z_to_le n v : le_to_Z (Z_to_le n v) = v mod 256 ^ Z.of_nat n.
Proof.
  revert v. induction n as [|n IH]; intros v.
  - simpl. rewrite Z.mod_1_r. reflexivity.
  - cbn [Z_to_le le_to_Z]. rewrite IH, byte_to_of_Z.
    rewrite Nat2Z.inj_succ, Z.pow_succ_r by lia.
    rewrite Z.mod_mod by lia. rewrite Z.rem_mul_r by lia. reflexivity.
Qed.

Lemma le_to_Z_replicate_x00 n : le_to_Z (replicate n x00) = 0.
Proof. induction n as [|n IH]; simpl; [|rewrite IH, byte_to_Z_x00]; reflexivity. Qed.

Lemma pack_q_ok v :
  - 2 ^ 63 <= v < 2 ^ 63 -> pack_q v = Ok (Z_to_le 8 (v mod 2 ^ 64)).
Proof.
  intros H. unfold pack_q.
  destruct (Z.leb_spec (- 2 ^ 63) v); [|lia].
  destruct (Z.ltb_spec v (2 ^ 63)); [|lia]. reflexivity.
Qed.

Lemma pack_q_inv v bs :
  pack_q v = Ok bs -> - 2 ^ 63 <= v < 2 ^ 63 /\ bs = Z_to_le 8 (v mod 2 ^ 64).
Proof.
  unfold pack_q.
  destruct (Z.leb_spec (- 2 ^ 63) v); simpl; [|discriminate].
  destruct (Z.ltb_spec v (2 ^ 63)); [|discriminate].
  intros [= <-]. split; [lia | reflexivity].
Qed.

Lemma unpack_Q_to_le v :
  unpack_Q (Z_to_le 8 v) = Ok (v mod 2 ^ 64).
Proof.
  unfold unpack_Q. rewrite length_Z_to_le. simpl Nat.eqb. cbv iota.
  rewrite le_to_Z_to_le. reflexivity.
Qed.

(** Packing a signed 64-bit value and unpacking it gives it back. *)
Lemma unpack_q_pack_q v bs : pack_q v = Ok bs -> unpack_q bs = Ok v.
Proof.
  intros H. apply pack_q_inv in H as [Hr ->].
  unfold unpack_q. rewrite unpack_Q_to_le. simpl. f_equal.
  rewrite Z.mod_mod by lia. unfold _to_signed_64.
  destruct (Z.leb_spec (2 ^ 63) (v mod 2 ^ 64)) as [Hc|Hc].
  - destruct (Z_lt_le_dec v 0) as [Hn|Hn].
    + replace v with (v + 2 ^ 64 - 1 * 2 ^ 64) at 1 by lia.
      rewrite Zminus_mod, Z_mod_mult, Z.sub_0_r, Z.mod_mod by lia.
      rewrite Z.mod_small by lia. lia.
    + rewrite Z.mod_small in Hc by lia. lia.
  - destruct (Z_lt_le_dec v 0) as [Hn|Hn].
    + exfalso. revert Hc. replace v with (v + 2 ^ 64 - 1 * 2 ^ 64) at 1 by lia.
      rewrite Zminus_mod, Z_mod_mult, Z.sub_0_r, Z.mod_mod by lia.
      rewrite Z.mod_small by lia. lia.
    + apply Z.mod_small. lia.
Qed.

(** Unpacking a non-negative signed value as unsigned gives it back. *)
Lemma unpack_Q_pack_q v bs : 0 <= v -> pack_q v = Ok bs -> unpack_Q bs = Ok v.
Proof.
  intros H0 H. apply pack_q_inv in H as [Hr ->].
  rewrite unpack_Q_to_le. f_equal. rewrite Z.mod_mod by lia.
  apply Z.mod_small. lia.
Qed.

(** ** Slices and stores on the memory view *)

Lemma slice_unpack_adjust n v :
  0 <= n < 2 ^ 63 -> slice_adjust n (slice_unpack v) = slice_adjust n v.
Proof.
  intros Hn. unfold slice_adjust, slice_unpack.
  destruct (Z.ltb_spec v 0), (Z.ltb_spec (Z.max (- 2 ^ 63) (Z.min (2 ^ 63 - 1) v)) 0); lia.
Qed.

Lemma buf_getslice_in buf p len :
  0 <= p -> 0 <= len -> p + len <= Z.of_nat (length buf) ->
  buf_getslice buf p (p + len) = take (Z.to_nat len) (drop (Z.to_nat p) buf).
Proof.
  intros Hp Hl Hb. unfold buf_getslice, slice_adjust.
  destruct (Z.ltb_spec p 0); [lia|]. destruct (Z.ltb_spec (p + len) 0); [lia|].
  rewrite !Z.min_l by lia. f_equal. lia.
Qed.

Lemma length_buf_getslice_in buf p len :
  0 <= p -> 0 <= len -> p + len <= Z.of_nat (length buf) ->
  length (buf_getslice buf p (p + len)) = Z.to_nat len.
Proof.
  intros Hp Hl Hb. rewrite buf_getslice_in by assumption.
  rewrite length_take, length_drop. lia.
Qed.

(** A slice never has more bytes than were asked for, nor more than the
    array holds. *)
Lemma length_buf_getslice buf p len :
  0 <= len ->
  (length (buf_getslice buf p (p + len)) <= Z.to_nat len)%nat
  /\ (length (buf_getslice buf p (p + len)) <= length buf)%nat.
Proof.
  intros Hl. unfold buf_getslice, slice_adjust. rewrite length_take, length_drop.
  destruct (Z.ltb_spec p 0), (Z.ltb_spec (p + len) 0); lia.
Qed.

Lemma lookup_splice buf q data k :
  (q + length data <= length buf)%nat ->
  splice buf q data !! k
  = if decide (q <= k < q + length data)%nat then data !! (k - q)%nat else buf !! k.
Proof.
  intros Hf. unfold splice.
  rewrite (take_ge data) by lia.
  destruct (decide (q <= k < q + length data)%nat) as [Hin|Hout].
  - rewrite lookup_app_r by (rewrite length_take; lia).
    rewrite length_take, Nat.min_l by lia.
    apply lookup_app_l. lia.
  - destruct (decide (k < q)%nat) as [Hlt|Hge].
    + rewrite lookup_app_l by (rewrite length_take; lia).
      apply lookup_take_lt. exact Hlt.
    + rewrite lookup_app_r by (rewrite length_take; lia).
      rewrite length_take, Nat.min_l by lia.
      rewrite lookup_app_r by lia.
      rewrite lookup_drop. f_equal. lia.
Qed.

Lemma length_splice buf q data : length (splice buf q data) = length buf.
Proof.
  unfold splice. rewrite !length_app, !length_take, length_drop. lia.
Qed.

Lemma splice_nil buf q : splice buf q [] = buf.
Proof.
  unfold splice. rewrite take_nil, Nat.add_0_r. simpl. apply take_drop.
Qed.

(** Reading back exactly what was stored. *)
Lemma read_splice_same buf q data :
  (q + length data <= length buf)%nat ->
  take (length data) (drop q (splice buf q data)) = data.
Proof.
  intros Hf. apply list_eq. intros i.
  destruct (decide (i < length data)%nat) as [Hi|Hi].
  - rewrite lookup_take_lt, lookup_drop, lookup_splice by assumption.
    rewrite decide_True by lia. f_equal. lia.
  - rewrite lookup_take_ge by lia. symmetry. apply lookup_ge_None. lia.
Qed.

(** Reading a range that the store did not touch. *)
Lemma read_splice_other buf q data p l :
  (q + length data <= length buf)%nat ->
  (p + l <= q \/ q + length data <= p)%nat ->
  take l (drop p (splice buf q data)) = take l (drop p buf).
Proof.
  intros Hf Hd. apply list_eq. intros i.
  destruct (decide (i < l)%nat) as [Hi|Hi].
  - rewrite !lookup_take_lt, !lookup_drop, lookup_splice by assumption.
    rewrite decide_False by lia. reflexivity.
  - rewrite !lookup_take_ge by lia. reflexivity.
Qed.

Lemma splice_cons buf q b rest :
  (q < length buf)%nat ->
  splice (<[q:=b]> buf) (S q) rest = splice buf q (b :: rest).
Proof.
  intros Hq. unfold splice. rewrite length_insert.
  rewrite (take_S_r _ q b) by (apply list_lookup_insert_eq; exact Hq).
  rewrite take_insert_ge by lia.
  rewrite drop_insert_lt by lia.
  replace (length buf - q)%nat with (S (length buf - S q)) by lia.
  simpl. rewrite <- app_assoc. simpl. repeat f_equal. lia.
Qed.

Lemma splice_oob buf q data : (length buf <= q)%nat -> splice buf q data = buf.
Proof.
  intros Hq. unfold splice. rewrite take_ge by lia.
  replace (length buf - q)%nat with 0%nat by lia.
  rewrite take_0, drop_ge by lia. simpl. apply app_nil_r.
Qed.

Lemma buf_setitem_nonneg buf idx b :
  0 <= idx ->
  buf_setitem buf idx b
  = if Z.of_nat (length buf) <=? idx then Raise IndexError
    else Ok (<[Z.to_nat idx := b]> buf).
Proof.
  intros H. unfold buf_setitem.
  assert (E : (idx <? 0) = false) by (apply Z.ltb_ge; lia).
  rewrite E. cbv beta zeta iota. rewrite E. reflexivity.
Qed.

Lemma set_memory_id h : set_memory (memory h) h = h.
Proof. destruct h; reflexivity. Qed.

(** [write_bytes] from a non-negative index: the bytes that fit are
    stored, and the call fails exactly when some byte does not fit. *)
Lemma write_bytes_from_spec ptr i data h :
  0 <= ptr + i ->
  write_bytes_from ptr i data h
  = ((if write_fits (Z.of_nat (length (memory h))) (ptr + i) data
      then Ok tt else Raise IndexError),
     set_memory (splice (memory h) (Z.to_nat (ptr + i)) data) h).
Proof.
  revert i h. induction data as [|b rest IH]; intros i h Hq.
  - simpl. unfold ret. rewrite splice_nil, set_memory_id. reflexivity.
  - cbn [write_bytes_from]. unfold bind, store_byte.
    rewrite buf_setitem_nonneg by exact Hq.
    destruct (Z.leb_spec (Z.of_nat (length (memory h))) (ptr + i)) as [Hoob|Hin].
    + rewrite splice_oob, set_memory_id by lia.
      unfold write_fits. cbn [length].
      destruct (Z.leb_spec (ptr + i + Z.of_nat (S (length rest)))
                  (Z.of_nat (length (memory h)))); [lia | reflexivity].
    + rewrite IH by lia. cbn [memory set_memory]. rewrite length_insert.
      replace (Z.to_nat (ptr + (i + 1))) with (S (Z.to_nat (ptr + i))) by lia.
      rewrite splice_cons by lia. f_equal.
      unfold write_fits. cbn [length].
      destruct (Z.leb_spec (ptr + i + Z.of_nat (S (length rest)))
                  (Z.of_nat (length (memory h)))) as [Hf|Hf];
        destruct rest as [|b' rest']; try reflexivity.
      * cbn [length] in *.
        destruct (Z.leb_spec (ptr + (i + 1) + Z.of_nat (S (length rest')))
                    (Z.of_nat (length (memory h)))); [reflexivity | lia].
      * cbn [length] in Hf. lia.
      * cbn [length] in *.
        destruct (Z.leb_spec (ptr + (i + 1) + Z.of_nat (S (length rest')))
                    (Z.of_nat (length (memory h)))); [lia | reflexivity].
Qed.

Lemma write_bytes_spec ptr data h :
  0 <= ptr ->
  write_bytes ptr data h
  = ((if write_fits (Z.of_nat (length (memory h))) ptr data
      then Ok tt else Raise IndexError),
     set_memory (splice (memory h) (Z.to_nat ptr) data) h).
Proof.
  intros Hp. unfold write_bytes. rewrite write_bytes_from_spec by lia.
  rewrite Z.add_0_r. reflexivity.
Qed.

Lemma write_fits_true n q data :
  q + Z.of_nat (length data) <= n -> write_fits n q data = true.
Proof.
  intros H. destruct data; [reflexivity|]. unfold write_fits.
  apply Z.leb_le. exact H.
Qed.

Lemma write_fits_inv n q data :
  write_fits n q data = true -> data <> [] -> q + Z.of_nat (length data) <= n.
Proof.
  destruct data; [congruence|]. unfold write_fits. intros H _.
  apply Z.leb_le. exact H.
Qed.

(** C5 as stated fails.  On a two-byte memory, reading 5 bytes at
    offset 1 does not fail: it returns the one byte that exists.
    Writing 3 bytes at offset 1 fails with [IndexError], but only after
    the first byte has been stored. *)
Lemma read_write_out_of_bounds :
  let h := mkHost [x41; x42] (mkAlloc 0) [] true false [] [] in
  fst (read_bytes 1 5 h) = Ok [x42]
  /\ fst (write_bytes 1 [x01; x02; x03] h) = Raise IndexError
  /\ memory (snd (write_bytes 1 [x01; x02; x03] h)) = [x41; x01].
Proof. repeat split. Qed.

(** C5, amended. [read(offset, len)] never fails and leaves memory as
    it is: it returns the Python slice [buf[offset : offset+len]].  When
    [0 <= offset], [0 <= len] and [offset + len] is within the memory
    size, the slice is exactly the [len] bytes at [offset]; when
    [0 <= len] it never has more than [len] bytes, so a request that
    reaches beyond memory is truncated, not refused.
    [write(offset, data)] with [0 <= offset] succeeds and stores all of
    [data] at [offset] when [offset + len(data)] is within the memory
    size; when it is not and [data] is not empty, it fails with
    [IndexError] after storing the bytes that fit.  With empty [data] it
    succeeds at any offset and changes nothing. *)
Theorem read_write_bounds (offset len : Z) (data : list byte) (h : host) :
  (fst (read_bytes offset len h) = Ok (buf_getslice (memory h) offset (offset + len))
   /\ memory (snd (read_bytes offset len h)) = memory h)
  /\ (0 <= len ->
      (length (buf_getslice (memory h) offset (offset + len)) <= Z.to_nat len)%nat)
  /\ (0 <= offset -> 0 <= len -> offset + len <= Z.of_nat (length (memory h)) ->
      buf_getslice (memory h) offset (offset + len)
      = take (Z.to_nat len) (drop (Z.to_nat offset) (memory h))
      /\ length (buf_getslice (memory h) offset (offset + len)) = Z.to_nat len)
  /\ (0 <= offset -> offset + Z.of_nat (length data) <= Z.of_nat (length (memory h)) ->
      write_bytes offset data h
      = (Ok tt, set_memory (splice (memory h) (Z.to_nat offset) data) h)
      /\ take (length data) (drop (Z.to_nat offset)
                               (splice (memory h) (Z.to_nat offset) data)) = data)
  /\ (0 <= offset -> Z.of_nat (length (memory h)) < offset + Z.of_nat (length data) ->
      data <> [] ->
      write_bytes offset data h
      = (Raise IndexError, set_memory (splice (memory h) (Z.to_nat offset) data) h))
  /\ write_bytes offset [] h = (Ok tt, h).
Proof.
  split; [split; reflexivity|]. split.
  { intros Hl. apply length_buf_getslice. exact Hl. }
  split.
  { intros Ho Hl Hb. split.
    - apply buf_getslice_in; assumption.
    - apply length_buf_getslice_in; assumption. }
  split.
  { intros Ho Hb. split.
    - rewrite write_bytes_spec by exact Ho.
      rewrite write_fits_true by exact Hb. reflexivity.
    - apply read_splice_same. lia. }
  split; [|reflexivity].
  intros Ho Hb Hne. rewrite write_bytes_spec by exact Ho.
  destruct (write_fits _ offset data) eqn:E; [|reflexivity].
  apply write_fits_inv in E; [lia | exact Hne].
Qed.

Lemma read_write_bounds_witness :
  let h := mkHost [x41; x42; x43; x44] (mkAlloc 0) [] true false [] [] in
  fst (read_bytes 1 2 h) = Ok [x42; x43]
  /\ (length (buf_getslice (memory h) 3 (3 + 5)) <= Z.to_nat 5)%nat
  /\ write_bytes 1 [x01; x02] h = (Ok tt, set_memory [x41; x01; x02; x44] h)
  /\ write_bytes 3 [x01; x02] h = (Raise IndexError, set_memory [x41; x42; x43; x01] h)
  /\ write_bytes 100 [] h = (Ok tt, h).
Proof.
  intros h.
  destruct (read_write_bounds 1 2 [x01; x02] h) as ((Hr & _) & _ & Hin & Hw & _).
  destruct (read_write_bounds 3 5 [x01; x02] h) as (_ & Hlen & _ & _ & Hf & _).
  destruct (read_write_bounds 100 0 [] h) as (_ & _ & _ & _ & _ & He).
  split; [exact Hr|]. split; [apply Hlen; lia|]. split; [|split; [|exact He]].
  - apply Hw; simpl; lia.
  - apply Hf; [simpl; lia | simpl; lia | discriminate].
Defined.

(** ** The write import *)

Lemma on_error_replace_ok k :
  (exists t, k = Ok t) -> exists t, on_error Replace k = Ok t.
Proof. intros [t ->]. simpl. eauto. Qed.

Lemma result_map_ok {A B} (f : A -> B) (r : result A) :
  (exists a, r = Ok a) -> exists b, result_map f r = Ok b.
Proof. intros [a ->]. simpl. eauto. Qed.

(** Decoding with [errors="replace"] never raises. *)
Lemma utf8_decode_from_replace_ok st bs :
  exists t, utf8_decode_from Replace st bs = Ok t.
Proof.
  revert st. induction bs as [|b rest IH]; intros st.
  - destruct st; simpl; eauto.
  - assert (Hfresh : exists t,
      match start_byte (byte_to_Z b) with
      | LChar c => result_map (cons c) (utf8_decode_from Replace None rest)
      | LInvalid => on_error Replace (utf8_decode_from Replace None rest)
      | LLead p => utf8_decode_from Replace (Some p) rest
      end = Ok t).
    { destruct (start_byte (byte_to_Z b)).
      - apply result_map_ok, IH.
      - apply on_error_replace_ok, IH.
      - apply IH. }
    cbn [utf8_decode_from]. destruct st as [p|]; [|exact Hfresh].
    destruct ((lo p <=? byte_to_Z b) && (byte_to_Z b <=? hi p)).
    + destruct (need p); [apply result_map_ok|]; apply IH.
    + apply on_error_replace_ok, Hfresh.
Qed.

Lemma utf8_decode_replace bs : utf8_decode Replace bs = Ok (decode_replace bs).
Proof.
  unfold decode_replace. destruct (utf8_decode_from_replace_ok None bs) as [t E].
  unfold utf8_decode. rewrite E. reflexivity.
Qed.

Lemma decode_replace_nil : decode_replace [] = [].
Proof. reflexivity. Qed.

(** The complete case analysis of [write_fn]. *)
Lemma write_fn_eq fd ptr length h :
  let text := decode_replace (buf_getslice (memory h) ptr (ptr + length)) in
  let h1 := set_mem_reads (mem_reads h ++ [(ptr, length)]) h in
  write_fn fd ptr length h
  = if length =? 0 then (Ok 0, h)
    else if negb (inst_wrapper h) then (Ok (-1), h)
    else if fd =? 1 then
      (Ok length, set_captured_stdout (captured_stdout h ++ [text]) h1)
    else if fd =? 2 then
      if stderr_closed h then (Ok (-1), h1)
      else (Ok length, set_stderr_text (stderr_text h ++ [text]) h1)
    else (Ok (-1), h1).
Proof.
  intros text h1. unfold write_fn.
  destruct (length =? 0); [reflexivity|].
  unfold bind, try_except, write_fn_try.
  destruct (inst_wrapper h); cbn [negb]; [|reflexivity].
  unfold bind, read_bytes, lift. rewrite utf8_decode_replace.
  fold text. fold h1.
  destruct (fd =? 1); [reflexivity|].
  destruct (fd =? 2); [|reflexivity].
  unfold stderr_write, ret. subst h1. cbn [stderr_closed set_mem_reads].
  destruct (stderr_closed h); reflexivity.
Qed.

(** [write_fn] returns a value on every input: it never raises. *)
Lemma write_fn_never_raises fd ptr length h :
  exists v, fst (write_fn fd ptr length h) = Ok v.
Proof.
  rewrite write_fn_eq.
  destruct (length =? 0); [eauto|]. destruct (negb (inst_wrapper h)); [eauto|].
  destruct (fd =? 1); [eauto|]. destruct (fd =? 2); [|eauto].
  destruct (stderr_closed h); eauto.
Qed.

Lemma write_all_log calls h :
  inst_wrapper h = true ->
  Forall (fun c => snd c <> 0) calls ->
  exists h',
    write_all calls h = (Ok (map snd calls), h')
    /\ captured_stdout h' = captured_stdout h ++ map (logged_text (memory h)) calls
    /\ memory h' = memory h /\ inst_wrapper h' = true.
Proof.
  intros Hi Hc. revert h Hi.
  induction Hc as [|[ptr len] calls Hnz _ IH]; intros h Hi.
  - exists h. simpl. rewrite app_nil_r. repeat split. exact Hi.
  - simpl in Hnz. cbn [write_all]. unfold bind at 1. rewrite write_fn_eq.
    destruct (Z.eqb_spec len 0) as [|_]; [contradiction|].
    rewrite Hi. cbn [negb]. rewrite Z.eqb_refl.
    set (h1 := set_captured_stdout _ _).
    destruct (IH h1 Hi) as (h' & E & Hlog & Hmem & Hi').
    exists h'. unfold bind. rewrite E. unfold ret. repeat split.
    + rewrite Hlog. subst h1. cbn [captured_stdout set_captured_stdout memory set_mem_reads].
      rewrite <- app_assoc. reflexivity.
    + rewrite Hmem. reflexivity.
    + exact Hi'.
Qed.

(** C3 as stated fails.  On a two-byte memory, [write(1, 100, 5)] asks
    for bytes that lie outside memory; no memory-access failure arises:
    the slice is empty, the empty text is logged and 5 is returned, not
    -1.  And before the instance wrapper is set, [write(1, 0, 1)] returns
    -1 and logs nothing although [fd = 1] and the byte exists. *)
Lemma write_fn_out_of_bounds :
  let h := mkHost [x41; x42] (mkAlloc 0) [] true false [] [] in
  let h0 := mkHost [x41; x42] (mkAlloc 0) [] false false [] [] in
  Z.of_nat (length (memory h)) < 100 + 5
  /\ fst (write_fn 1 100 5 h) = Ok 5
  /\ fst (write_fn 1 100 5 h) <> Ok (-1)
  /\ captured_stdout (snd (write_fn 1 100 5 h)) = [[]]
  /\ write_fn 1 0 1 h0 = (Ok (-1), h0).
Proof. simpl. repeat split; try lia. intros [=]. Qed.

(** C3, amended. The write import never raises and returns by this case
    analysis.  If [length = 0] it returns 0 and leaves memory, the log and
    everything else untouched.  Otherwise, if the instance wrapper is not
    set yet, it returns -1.  Otherwise it takes the slice
    [buf[ptr : ptr+length]] of memory, which is exactly the [length] bytes
    at [ptr] when that range lies within memory and otherwise the slice
    Python computes from the two bounds (a negative bound counts from the
    end of memory, and each bound is then limited to the memory size), so
    that no memory-access failure arises, and decodes it as UTF-8 with
    invalid sequences replaced; then, when [fd = 1], it
    appends the text to the captured-output log and returns [length];
    when [fd = 2], it writes the text to the error stream and returns
    [length], or returns -1 when that stream refuses the write; for any
    other [fd] it returns -1.  Hence N sequential [fd = 1] calls with
    non-zero lengths extend the log by the N decoded texts in call
    order. *)
Theorem write_fn_cases (fd ptr length : Z) (h : host) :
  let text := logged_text (memory h) (ptr, length) in
  let h1 := set_mem_reads (mem_reads h ++ [(ptr, length)]) h in
  (exists v, fst (write_fn fd ptr length h) = Ok v)
  /\ (length = 0 -> write_fn fd ptr length h = (Ok 0, h))
  /\ (length <> 0 -> inst_wrapper h = false ->
      write_fn fd ptr length h = (Ok (-1), h))
  /\ (length <> 0 -> inst_wrapper h = true ->
      (fd = 1 ->
       write_fn fd ptr length h
       = (Ok length, set_captured_stdout (captured_stdout h ++ [text]) h1))
      /\ (fd = 2 -> stderr_closed h = false ->
          write_fn fd ptr length h
          = (Ok length, set_stderr_text (stderr_text h ++ [text]) h1))
      /\ (fd = 2 -> stderr_closed h = true ->
          write_fn fd ptr length h = (Ok (-1), h1))
      /\ (fd <> 1 -> fd <> 2 -> write_fn fd ptr length h = (Ok (-1), h1)))
  /\ (0 <= ptr -> 0 < length -> ptr + length <= Z.of_nat (List.length (memory h)) ->
      buf_getslice (memory h) ptr (ptr + length)
      = take (Z.to_nat length) (drop (Z.to_nat ptr) (memory h)))
  /\ (forall calls, inst_wrapper h = true -> Forall (fun c => snd c <> 0) calls ->
      exists h',
        write_all calls h = (Ok (map snd calls), h')
        /\ captured_stdout h'
           = captured_stdout h ++ map (logged_text (memory h)) calls).
Proof.
  intros text h1. split; [apply write_fn_never_raises|].
  split. { intros ->. reflexivity. }
  split. { intros Hl Hi. rewrite write_fn_eq.
           destruct (Z.eqb_spec length 0); [contradiction|]. rewrite Hi. reflexivity. }
  split.
  { intros Hl Hi. repeat split.
    - intros ->. rewrite write_fn_eq.
      destruct (Z.eqb_spec length 0); [contradiction|]. rewrite Hi. reflexivity.
    - intros -> Hc. rewrite write_fn_eq.
      destruct (Z.eqb_spec length 0); [contradiction|]. rewrite Hi, Hc. reflexivity.
    - intros -> Hc. rewrite write_fn_eq.
      destruct (Z.eqb_spec length 0); [contradiction|]. rewrite Hi, Hc. reflexivity.
    - intros H1 H2. rewrite write_fn_eq.
      destruct (Z.eqb_spec length 0); [contradiction|]. rewrite Hi. cbn [negb].
      destruct (Z.eqb_spec fd 1); [contradiction|].
      destruct (Z.eqb_spec fd 2); [contradiction|]. reflexivity. }
  split.
  { intros Hp Hl Hb. apply buf_getslice_in; lia. }
  intros calls Hi Hc.
  destruct (write_all_log calls h Hi Hc) as (h' & E & Hlog & _).
  exists h'. split; assumption.
Qed.

Lemma write_fn_cases_witness :
  let h := mkHost [x68; x69; x21] (mkAlloc 0) [] true false [] [] in
  write_fn 1 0 0 h = (Ok 0, h)
  /\ write_fn 1 0 2 h
     = (Ok 2, set_captured_stdout [[104; 105]] (set_mem_reads [(0, 2)] h))
  /\ write_fn 7 0 2 h = (Ok (-1), set_mem_reads [(0, 2)] h)
  /\ exists h',
      write_all [(0, 2); (2, 1)] h = (Ok [2; 1], h')
      /\ captured_stdout h' = [[104; 105]; [33]].
Proof.
  intros h.
  destruct (write_fn_cases 1 0 0 h) as (_ & H0 & _).
  destruct (write_fn_cases 1 0 2 h) as (_ & _ & _ & H1 & _ & Hall).
  destruct (write_fn_cases 7 0 2 h) as (_ & _ & _ & H7 & _).
  split; [apply H0; reflexivity|]. split.
  { destruct (H1 ltac:(lia) eq_refl) as (Ha & _). apply Ha. reflexivity. }
  split.
  { destruct (H7 ltac:(lia) eq_refl) as (_ & _ & _ & Hd). apply Hd; lia. }
  apply (Hall [(0, 2); (2, 1)]); [reflexivity|].
  repeat constructor; simpl; lia.
Defined.

(** C10 as stated fails.  With [ptr = 0] and [length = -1] the slice is
    [buf[0:-1]], every byte but the last: on a two-byte memory holding
    "AB" the import logs "A", not the empty string (and the value it
    returns, the length itself, is -1).  And before the instance wrapper
    is set, [write(1, -1, -5)] returns -1, not the length, and appends
    nothing. *)
Lemma write_fn_negative_length_wraps :
  let h := mkHost [x41; x42] (mkAlloc 0) [] true false [] [] in
  let h0 := mkHost [x41; x42] (mkAlloc 0) [] false false [] [] in
  fst (read_bytes 0 (-1) h) = Ok [x41]
  /\ write_fn 1 0 (-1) h
     = (Ok (-1), set_captured_stdout [[65]] (set_mem_reads [(0, -1)] h))
  /\ captured_stdout (snd (write_fn 1 0 (-1) h)) <> [[]]
  /\ write_fn 1 (-1) (-5) h0 = (Ok (-1), h0)
  /\ fst (write_fn 1 (-1) (-5) h0) <> Ok (-5).
Proof. simpl. repeat split; intros [=]. Qed.

Lemma buf_getslice_negative_length buf ptr length :
  length < 0 ->
  ptr < 0 \/ 0 <= ptr + length \/ Z.of_nat (List.length buf) <= - length ->
  buf_getslice buf ptr (ptr + length) = [].
Proof.
  intros Hl Hc. unfold buf_getslice, slice_adjust.
  replace (Z.to_nat _) with 0%nat at 1; [reflexivity|].
  destruct (Z.ltb_spec ptr 0), (Z.ltb_spec (ptr + length) 0); lia.
Qed.

(** C10, amended. For every negative [length] and every [ptr] for which
    the slice bounds do not wrap around the end of memory - that is,
    [ptr < 0], or [0 <= ptr + length], or the memory holds at most
    [-length] bytes - the read yields an empty byte sequence, and the
    write import with [fd = 1], once the instance wrapper is set, does
    not take the error path: it reads zero bytes, appends the empty
    string to the captured-output log and returns the negative length
    itself.  Before the instance wrapper is set it returns -1 and
    changes nothing. *)
Theorem write_fn_negative_length (ptr length : Z) (h : host) :
  length < 0 ->
  ptr < 0 \/ 0 <= ptr + length \/ Z.of_nat (List.length (memory h)) <= - length ->
  fst (read_bytes ptr length h) = Ok []
  /\ (inst_wrapper h = true ->
      write_fn 1 ptr length h
      = (Ok length,
         set_captured_stdout (captured_stdout h ++ [[]])
           (set_mem_reads (mem_reads h ++ [(ptr, length)]) h)))
  /\ (inst_wrapper h = false -> write_fn 1 ptr length h = (Ok (-1), h)).
Proof.
  intros Hl Hc.
  pose proof (buf_getslice_negative_length (memory h) ptr length Hl Hc) as E.
  split; [|split].
  - unfold read_bytes. cbn [fst]. rewrite E. reflexivity.
  - intros Hi. rewrite write_fn_eq. destruct (Z.eqb_spec length 0); [lia|].
    rewrite Hi. cbn [negb]. rewrite Z.eqb_refl, E, decode_replace_nil. reflexivity.
  - intros Hi. rewrite write_fn_eq. destruct (Z.eqb_spec length 0); [lia|].
    rewrite Hi. reflexivity.
Qed.

Lemma write_fn_negative_length_witness :
  let h := mkHost [x41; x42] (mkAlloc 0) [] true false [] [] in
  let h0 := mkHost [x41; x42] (mkAlloc 0) [] false false [] [] in
  fst (read_bytes 1 (-1) h) = Ok []
  /\ write_fn 1 1 (-1) h
     = (Ok (-1), set_captured_stdout [[]] (set_mem_reads [(1, -1)] h))
  /\ write_fn 1 (-1) (-5) h0 = (Ok (-1), h0).
Proof.
  intros h h0.
  destruct (write_fn_negative_length 1 (-1) h ltac:(lia) ltac:(lia)) as (Hr & Hs & _).
  destruct (write_fn_negative_length (-1) (-5) h0 ltac:(lia) ltac:(lia)) as (_ & _ & Hu).
  split; [exact Hr|]. split; [apply Hs; reflexivity | apply Hu; reflexivity].
Defined.

(** ** Decoding a string struct *)

Lemma land_pow2 c n :
  0 <= n -> Z.land c (2 ^ n) = if Z.testbit c n then 2 ^ n else 0.
Proof.
  intros Hn. apply Z.bits_inj'. intros m Hm.
  rewrite Z.land_spec, Z.pow2_bits_eqb by lia.
  destruct (Z.eqb_spec n m) as [->|Hne].
  - destruct (Z.testbit c m); simpl.
    + rewrite Z.pow2_bits_true by lia. reflexivity.
    + rewrite Z.bits_0. reflexivity.
  - rewrite andb_false_r. destruct (Z.testbit c n).
    + rewrite Z.pow2_bits_false by lia. reflexivity.
    + rewrite Z.bits_0. reflexivity.
Qed.

(** The flag test of the source is the test of bit 63. *)
Lemma sso_flag_testbit c : negb (Z.land c SSO_FLAG =? 0) = Z.testbit c 63.
Proof.
  unfold SSO_FLAG. change 0x8000000000000000 with (2 ^ 63).
  rewrite land_pow2 by lia. destruct (Z.testbit c 63); reflexivity.
Qed.

Lemma sso_len_div c : Z.shiftr (Z.land c SSO_LEN_MASK) 56 = (c / 2 ^ 56) mod 32.
Proof.
  rewrite Z.shiftr_land. unfold SSO_LEN_MASK.
  change (Z.shiftr 0x1F00000000000000 56) with (Z.ones 5).
  rewrite Z.land_ones by lia. rewrite Z.shiftr_div_pow2 by lia. reflexivity.
Qed.

Lemma bits_56_60_div c : bits_56_60 c = (c / 2 ^ 56) mod 32.
Proof.
  unfold bits_56_60. rewrite !Z.testbit_spec' by lia.
  change (2 ^ 57) with (2 ^ 56 * 2). change (2 ^ 58) with (2 ^ 56 * 4).
  change (2 ^ 59) with (2 ^ 56 * 8). change (2 ^ 60) with (2 ^ 56 * 16).
  rewrite <- !Z.div_div by lia.
  generalize (c / 2 ^ 56). intros x.
  Z.div_mod_to_equations. lia.
Qed.

(** The length field of the source is bits 56-60. *)
Lemma sso_len_bits c : Z.shiftr (Z.land c SSO_LEN_MASK) 56 = bits_56_60 c.
Proof. rewrite sso_len_div, bits_56_60_div. reflexivity. Qed.

Lemma bits_56_60_range c : 0 <= bits_56_60 c < 32.
Proof. rewrite bits_56_60_div. apply Z.mod_pos_bound. lia. Qed.

Lemma read_u64_le_eq ptr h :
  read_u64_le ptr h = (peek_u64 (memory h) ptr, log_reads [(ptr, 8)] h).
Proof. reflexivity. Qed.

Lemma read_i64_le_eq ptr h :
  read_i64_le ptr h = (peek_i64 (memory h) ptr, log_reads [(ptr, 8)] h).
Proof. reflexivity. Qed.

Lemma log_reads_log_reads r1 r2 h :
  log_reads r2 (log_reads r1 h) = log_reads (r1 ++ r2) h.
Proof. unfold log_reads. cbn. rewrite <- app_assoc. reflexivity. Qed.

Ltac simpl_host :=
  unfold log_reads;
  cbn [memory alloc captured_stdout inst_wrapper stderr_closed stderr_text
       mem_reads set_mem_reads set_memory set_alloc set_captured_stdout
       set_stderr_text _ptr fst snd];
  rewrite <- ?app_assoc; cbn [app].

(** [read_string_struct] is the reference decoder. *)
Lemma read_string_struct_decode_spec p h :
  read_string_struct p h = decode_spec p h.
Proof.
  unfold read_string_struct, decode_spec, bind.
  destruct (read_u64_le (p + 16) h) as [[cap|e] h1]; [|reflexivity].
  rewrite sso_flag_testbit. destruct (Z.testbit cap 63).
  - unfold ret. rewrite sso_len_bits. reflexivity.
  - destruct (read_i64_le p h1) as [[dp|e] h2]; [|reflexivity].
    destruct (read_i64_le (p + 8) h2) as [[len|e] h3]; reflexivity.
Qed.

(** Inline form: the struct's capacity field has bit 63 set. *)
Lemma read_string_struct_sso p h cap :
  peek_u64 (memory h) (p + 16) = Ok cap -> Z.testbit cap 63 = true ->
  read_string_struct p h
  = if bits_56_60 cap <=? 0 then (Ok [], log_reads [(p + 16, 8)] h)
    else (utf8_decode Strict (buf_getslice (memory h) p (p + bits_56_60 cap)),
          log_reads [(p + 16, 8); (p, bits_56_60 cap)] h).
Proof.
  intros Hc Hb. rewrite read_string_struct_decode_spec.
  unfold decode_spec, bind. rewrite read_u64_le_eq, Hc, Hb. unfold ret.
  cbn [fst snd]. destruct (bits_56_60 cap <=? 0); [reflexivity|].
  unfold read_bytes, lift. simpl_host. reflexivity.
Qed.

(** Heap form: bit 63 of the capacity field is clear. *)
Lemma read_string_struct_heap p h cap dp len :
  peek_u64 (memory h) (p + 16) = Ok cap -> Z.testbit cap 63 = false ->
  peek_i64 (memory h) p = Ok dp -> peek_i64 (memory h) (p + 8) = Ok len ->
  read_string_struct p h
  = if len <=? 0 then (Ok [], log_reads [(p + 16, 8); (p, 8); (p + 8, 8)] h)
    else (utf8_decode Strict (buf_getslice (memory h) dp (dp + len)),
          log_reads [(p + 16, 8); (p, 8); (p + 8, 8); (dp, len)] h).
Proof.
  intros Hc Hb Hp Hl. rewrite read_string_struct_decode_spec.
  unfold decode_spec, bind. rewrite read_u64_le_eq, Hc, Hb.
  rewrite read_i64_le_eq. cbn [memory log_reads set_mem_reads]. rewrite Hp.
  rewrite read_i64_le_eq. cbn [memory log_reads set_mem_reads]. rewrite Hl.
  unfold ret. cbn [fst snd]. destruct (len <=? 0).
  - simpl_host. reflexivity.
  - unfold read_bytes, lift. simpl_host. reflexivity.
Qed.

(** C6. [read_string_struct] equals the reference decoder: it reads the
    capacity field at struct offset 16 and looks at its top bit first.
    If the bit is set, the length is bits 56-60 of that field and the
    data starts at the struct's own base, so a struct whose capacity is
    [0x8000000000000000 | (5 << 56)] decodes as the 5 bytes at the struct
    base.  If the bit is clear, the pointer is the 8 bytes at offset 0
    and the length the (signed) 8 bytes at offset 8.  A decoded length
    [<= 0] yields the empty string, and the only reads made are those of
    the header fields. *)
Theorem read_string_struct_reference (p : Z) (h : host) :
  read_string_struct p h = decode_spec p h
  /\ (forall cap,
      peek_u64 (memory h) (p + 16) = Ok cap -> Z.testbit cap 63 = true ->
      (0 < bits_56_60 cap ->
       read_string_struct p h
       = (utf8_decode Strict (buf_getslice (memory h) p (p + bits_56_60 cap)),
          log_reads [(p + 16, 8); (p, bits_56_60 cap)] h))
      /\ (bits_56_60 cap <= 0 ->
          read_string_struct p h = (Ok [], log_reads [(p + 16, 8)] h)))
  /\ (peek_u64 (memory h) (p + 16)
      = Ok (Z.lor 0x8000000000000000 (Z.shiftl 5 56)) ->
      read_string_struct p h
      = (utf8_decode Strict (buf_getslice (memory h) p (p + 5)),
         log_reads [(p + 16, 8); (p, 5)] h))
  /\ (forall cap dp len,
      peek_u64 (memory h) (p + 16) = Ok cap -> Z.testbit cap 63 = false ->
      peek_i64 (memory h) p = Ok dp -> peek_i64 (memory h) (p + 8) = Ok len ->
      (0 < len ->
       read_string_struct p h
       = (utf8_decode Strict (buf_getslice (memory h) dp (dp + len)),
          log_reads [(p + 16, 8); (p, 8); (p + 8, 8); (dp, len)] h))
      /\ (len <= 0 ->
          read_string_struct p h
          = (Ok [], log_reads [(p + 16, 8); (p, 8); (p + 8, 8)] h))).
Proof.
  split; [apply read_string_struct_decode_spec|]. split.
  { intros cap Hc Hb. rewrite (read_string_struct_sso p h cap Hc Hb).
    split; intros Hl.
    - destruct (Z.leb_spec (bits_56_60 cap) 0); [lia | reflexivity].
    - destruct (Z.leb_spec (bits_56_60 cap) 0); [reflexivity | lia]. }
  split.
  { intros Hc. rewrite (read_string_struct_sso p h _ Hc); reflexivity. }
  intros cap dp len Hc Hb Hp Hl.
  rewrite (read_string_struct_heap p h cap dp len Hc Hb Hp Hl).
  split; intros Hlen.
  - destruct (Z.leb_spec len 0); [lia | reflexivity].
  - destruct (Z.leb_spec len 0); [reflexivity | lia].
Qed.

Lemma read_string_struct_reference_witness :
  let inline := [x68; x65; x6c; x6c; x6f] ++ replicate 18 x00 ++ [x85] in
  let heap := [x18; x00; x00; x00; x00; x00; x00; x00;
               x02; x00; x00; x00; x00; x00; x00; x00;
               x03; x00; x00; x00; x00; x00; x00; x00; x68; x69; x00] in
  let empty := replicate 24 x00 in
  let host_of m := mkHost m (mkAlloc 0) [] true false [] [] in
  read_string_struct 0 (host_of inline)
  = (Ok [104; 101; 108; 108; 111],
     log_reads [(16, 8); (0, 5)] (host_of inline))
  /\ read_string_struct 0 (host_of heap)
     = (Ok [104; 105],
        log_reads [(16, 8); (0, 8); (8, 8); (24, 2)] (host_of heap))
  /\ read_string_struct 0 (host_of empty)
     = (Ok [], log_reads [(16, 8); (0, 8); (8, 8)] (host_of empty)).
Proof.
  intros inline heap empty host_of.
  destruct (read_string_struct_reference 0 (host_of inline)) as (_ & _ & Hi & _).
  destruct (read_string_struct_reference 0 (host_of heap)) as (_ & _ & _ & Hh).
  destruct (read_string_struct_reference 0 (host_of empty)) as (_ & _ & _ & He).
  split; [exact (Hi eq_refl)|]. split.
  - destruct (Hh 3 24 2 eq_refl eq_refl eq_refl eq_refl) as (H1 & _).
    apply H1. lia.
  - destruct (He 0 0 0 eq_refl eq_refl eq_refl eq_refl) as (_ & H2).
    apply H2. lia.
Defined.

(** ** Reading back what was written *)

Lemma alloc_aligned_spec align size h :
  1 <= align ->
  exists p, alloc_aligned align size h = (Ok p, set_alloc (mkAlloc (p + size)) h)
            /\ _ptr (alloc h) <= p < _ptr (alloc h) + align /\ p mod align = 0.
Proof.
  intros Ha. destruct (aligned_alloc_spec align size (alloc h) Ha) as (p & E & Hr & Hm).
  exists p. unfold alloc_aligned. rewrite E. auto.
Qed.

(** Reading part of what a store put there. *)
Lemma read_splice_sub buf q data off l :
  (q + length data <= length buf)%nat -> (off + l <= length data)%nat ->
  take l (drop (q + off) (splice buf q data)) = take l (drop off data).
Proof.
  intros Hf Hs. apply list_eq. intros i.
  destruct (decide (i < l)%nat) as [Hi|Hi].
  - rewrite !lookup_take_lt, !lookup_drop, lookup_splice by assumption.
    rewrite decide_True by lia. f_equal. lia.
  - rewrite !lookup_take_ge by lia. reflexivity.
Qed.

Lemma buf_getslice_splice_sub buf q data off l :
  0 <= q -> 0 <= off -> 0 <= l ->
  q + Z.of_nat (length data) <= Z.of_nat (length buf) ->
  off + l <= Z.of_nat (length data) ->
  buf_getslice (splice buf (Z.to_nat q) data) (q + off) (q + off + l)
  = take (Z.to_nat l) (drop (Z.to_nat off) data).
Proof.
  intros Hq Ho Hl Hf Hs.
  rewrite buf_getslice_in by (rewrite ?length_splice; lia).
  replace (Z.to_nat (q + off)) with (Z.to_nat q + Z.to_nat off)%nat by lia.
  apply read_splice_sub; lia.
Qed.

Lemma buf_getslice_splice_other buf q data p l :
  0 <= q -> 0 <= p -> 0 <= l ->
  q + Z.of_nat (length data) <= Z.of_nat (length buf) ->
  p + l <= Z.of_nat (length buf) ->
  p + l <= q \/ q + Z.of_nat (length data) <= p ->
  buf_getslice (splice buf (Z.to_nat q) data) p (p + l) = buf_getslice buf p (p + l).
Proof.
  intros Hq Hp Hl Hf Hb Hd.
  rewrite !buf_getslice_in by (rewrite ?length_splice; lia).
  apply read_splice_other; lia.
Qed.

Lemma peek_zero_struct m p off :
  0 <= p -> p + 24 <= Z.of_nat (length m) -> off = 0 \/ off = 8 \/ off = 16 ->
  peek_u64 (splice m (Z.to_nat p) (replicate 24 x00)) (p + off) = Ok 0
  /\ peek_i64 (splice m (Z.to_nat p) (replicate 24 x00)) (p + off) = Ok 0.
Proof.
  intros Hp Hb Ho. unfold peek_i64, peek_u64.
  rewrite buf_getslice_splice_sub by (rewrite ?length_replicate; lia).
  destruct Ho as [->|[->| ->]]; split; reflexivity.
Qed.

Lemma alloc_string_struct_inv h p h' :
  0 <= _ptr (alloc h) ->
  alloc_string_struct h = (Ok p, h') ->
  0 <= p /\ p + 24 <= Z.of_nat (length (memory h))
  /\ memory h' = splice (memory h) (Z.to_nat p) (replicate 24 x00).
Proof.
  intros Hc. unfold alloc_string_struct, bind.
  destruct (alloc_aligned_spec STRING_STRUCT_ALIGN STRING_STRUCT_SIZE h)
    as (sp & E & Hr & _); [unfold STRING_STRUCT_ALIGN; lia|].
  rewrite E. rewrite write_bytes_spec by lia. simpl_host.
  destruct (write_fits _ sp _) eqn:F; [|discriminate].
  unfold ret. intros [= <- <-]. simpl_host.
  apply write_fits_inv in F; [|discriminate].
  change (Z.to_nat STRING_STRUCT_SIZE) with 24%nat in *.
  rewrite length_replicate in F. repeat split; try lia.
Qed.

Lemma alloc_string_struct_ok h :
  0 <= _ptr (alloc h) ->
  _ptr (alloc h) + 7 + 24 <= Z.of_nat (length (memory h)) ->
  exists p h', alloc_string_struct h = (Ok p, h').
Proof.
  intros Hc Hb. unfold alloc_string_struct, bind.
  destruct (alloc_aligned_spec STRING_STRUCT_ALIGN STRING_STRUCT_SIZE h)
    as (sp & E & Hr & _); [unfold STRING_STRUCT_ALIGN; lia|].
  unfold STRING_STRUCT_ALIGN in Hr.
  rewrite E. rewrite write_bytes_spec by lia. simpl_host.
  rewrite write_fits_true.
  - unfold ret. eauto.
  - change (Z.to_nat STRING_STRUCT_SIZE) with 24%nat.
    rewrite length_replicate. lia.
Qed.

(** C9. Decoding a freshly allocated empty output struct yields the
    empty string.  For every memory state (with the allocator cursor a
    non-negative offset), whenever [alloc_string_struct] returns a
    pointer, [read_string_struct] applied to that pointer returns the
    empty string, having read only the three header fields and no data
    bytes; and [alloc_string_struct] does return when the memory has room
    for the struct after the cursor. *)
Theorem alloc_then_read_empty (h : host) :
  0 <= _ptr (alloc h) ->
  (forall p h', alloc_string_struct h = (Ok p, h') ->
     read_string_struct p h'
     = (Ok [], log_reads [(p + 16, 8); (p, 8); (p + 8, 8)] h'))
  /\ (_ptr (alloc h) + 7 + 24 <= Z.of_nat (length (memory h)) ->
      exists p h', alloc_string_struct h = (Ok p, h')).
Proof.
  intros Hc. split; [|apply alloc_string_struct_ok; exact Hc].
  intros p h' E.
  destruct (alloc_string_struct_inv h p h' Hc E) as (Hp & Hb & Hm).
  destruct (peek_zero_struct (memory h) p 16 Hp Hb ltac:(lia)) as [Hcap _].
  destruct (peek_zero_struct (memory h) p 0 Hp Hb ltac:(lia)) as [_ Hdp].
  destruct (peek_zero_struct (memory h) p 8 Hp Hb ltac:(lia)) as [_ Hlen].
  rewrite Z.add_0_r in Hdp. rewrite <- Hm in Hcap, Hdp, Hlen.
  rewrite (read_string_struct_heap p h' 0 0 0 Hcap eq_refl Hdp Hlen).
  reflexivity.
Qed.

Lemma alloc_then_read_empty_witness :
  let h := mkHost (replicate 40 xff) (mkAlloc 3) [] true false [] [] in
  let h' := snd (alloc_string_struct h) in
  fst (alloc_string_struct h) = Ok 8
  /\ read_string_struct 8 h'
     = (Ok [], log_reads [(8 + 16, 8); (8, 8); (8 + 8, 8)] h').
Proof.
  intros h h'. split; [vm_compute; reflexivity|].
  destruct (alloc_then_read_empty h ltac:(unfold h; simpl; lia)) as [Hread _].
  apply Hread. vm_compute. reflexivity.
Defined.

(** ** UTF-8 round trip *)

Ltac cmp :=
  repeat match goal with
  | |- context [?a <? ?b] => destruct (Z.ltb_spec a b); try lia
  | |- context [?a <=? ?b] => destruct (Z.leb_spec a b); try lia
  | |- context [?a =? ?b] => destruct (Z.eqb_spec a b); try lia
  end.

Lemma utf8_decode_from_cons mode st b rest :
  utf8_decode_from mode st (b :: rest)
  = let fresh :=
      match start_byte (byte_to_Z b) with
      | LChar c => result_map (cons c) (utf8_decode_from mode None rest)
      | LInvalid => on_error mode (utf8_decode_from mode None rest)
      | LLead p => utf8_decode_from mode (Some p) rest
      end in
    match st with
    | None => fresh
    | Some p =>
        if (lo p <=? byte_to_Z b) && (byte_to_Z b <=? hi p) then
          let acc' := acc p * 64 + (byte_to_Z b - 0x80) in
          match need p with
          | O => result_map (cons acc') (utf8_decode_from mode None rest)
          | S n => utf8_decode_from mode (Some (mkPartial n acc' 0x80 0xBF)) rest
          end
        else on_error mode fresh
    end.
Proof. reflexivity. Qed.

(** A continuation byte that lies in the expected range is consumed. *)
Lemma utf8_decode_from_cont mode p z rest :
  0 <= z < 256 -> lo p <= z <= hi p ->
  utf8_decode_from mode (Some p) (byte_of_Z z :: rest)
  = match need p with
    | O => result_map (cons (acc p * 64 + (z - 0x80)))
             (utf8_decode_from mode None rest)
    | S n => utf8_decode_from mode
               (Some (mkPartial n (acc p * 64 + (z - 0x80)) 0x80 0xBF)) rest
    end.
Proof.
  intros Hz Hr. rewrite utf8_decode_from_cons. cbv zeta.
  rewrite byte_to_of_Z_small by exact Hz.
  destruct (Z.leb_spec (lo p) z); [|lia].
  destruct (Z.leb_spec z (hi p)); [|lia]. reflexivity.
Qed.

Lemma utf8_decode_from_start mode z rest :
  0 <= z < 256 ->
  utf8_decode_from mode None (byte_of_Z z :: rest)
  = match start_byte z with
    | LChar c => result_map (cons c) (utf8_decode_from mode None rest)
    | LInvalid => on_error mode (utf8_decode_from mode None rest)
    | LLead p => utf8_decode_from mode (Some p) rest
    end.
Proof.
  intros Hz. rewrite utf8_decode_from_cons. cbv zeta.
  rewrite byte_to_of_Z_small by exact Hz. reflexivity.
Qed.

(** Decoding the encoding of one code point gives it back, in either
    error mode. *)
Lemma utf8_decode_encode_cp mode c e rest :
  utf8_encode_cp c = Ok e ->
  utf8_decode_from mode None (e ++ rest)
  = result_map (cons c) (utf8_decode_from mode None rest).
Proof.
  unfold utf8_encode_cp.
  destruct (Z.ltb_spec c 0) as [|H0]; [discriminate|].
  destruct (Z.ltb_spec c 0x80) as [H1|H1].
  { intros [= <-]. cbn [app]. rewrite utf8_decode_from_start by lia.
    unfold start_byte. cmp. reflexivity. }
  destruct (Z.ltb_spec c 0x800) as [H2|H2].
  { intros [= <-]. cbn [app].
    assert (Hd : c = 64 * (c / 64) + c mod 64 /\ 0 <= c mod 64 < 64)
      by (Z.div_mod_to_equations; lia).
    revert Hd. generalize (c / 64) (c mod 64). intros q r [Hc Hr].
    rewrite utf8_decode_from_start by lia.
    unfold start_byte. cmp.
    rewrite utf8_decode_from_cont by (cbn [lo hi]; lia).
    cbn [need acc]. do 2 f_equal. lia. }
  destruct (Z.ltb_spec c 0x10000) as [H3|H3].
  { destruct (Z.leb_spec 0xD800 c) as [Hs|Hs];
      destruct (Z.ltb_spec c 0xE000) as [Hs'|Hs']; cbn [andb]; try discriminate.
    all: intros [= <-]; cbn [app].
    all: assert (Hd : c = 4096 * (c / 4096) + 64 * ((c / 64) mod 64) + c mod 64
                     /\ 0 <= (c / 64) mod 64 < 64 /\ 0 <= c mod 64 < 64)
        by (Z.div_mod_to_equations; lia).
    all: revert Hd; generalize (c / 4096) ((c / 64) mod 64) (c mod 64);
      intros a b d (Hc & Hb & Hd).
    all: rewrite utf8_decode_from_start by lia.
    all: unfold start_byte; cmp.
    all: rewrite utf8_decode_from_cont by (cbn [lo hi]; lia).
    all: cbn [need acc].
    all: rewrite utf8_decode_from_cont by (cbn [lo hi]; lia).
    all: cbn [need acc]; do 2 f_equal; lia. }
  destruct (Z.ltb_spec c 0x110000) as [H4|H4]; [|discriminate].
  intros [= <-]; cbn [app].
  assert (Hd : c = 262144 * (c / 262144) + 4096 * ((c / 4096) mod 64)
                   + 64 * ((c / 64) mod 64) + c mod 64
               /\ 0 <= (c / 4096) mod 64 < 64
               /\ 0 <= (c / 64) mod 64 < 64 /\ 0 <= c mod 64 < 64)
    by (Z.div_mod_to_equations; lia).
  revert Hd.
  generalize (c / 262144) ((c / 4096) mod 64) ((c / 64) mod 64) (c mod 64).
  intros a b d f (Hc & Hb & Hd & Hf).
  rewrite utf8_decode_from_start by lia.
  unfold start_byte; cmp.
  all: rewrite utf8_decode_from_cont by (cbn [lo hi]; lia).
  all: cbn [need acc].
  all: rewrite utf8_decode_from_cont by (cbn [lo hi]; lia).
  all: cbn [need acc].
  all: rewrite utf8_decode_from_cont by (cbn [lo hi]; lia).
  all: cbn [need acc]; do 2 f_equal; lia.
Qed.

Lemma utf8_decode_encode mode s bs :
  utf8_encode s = Ok bs -> utf8_decode mode bs = Ok s.
Proof.
  unfold utf8_decode. revert bs. induction s as [|c s IH]; intros bs.
  - intros [= <-]. reflexivity.
  - cbn [utf8_encode]. destruct (utf8_encode_cp c) as [e|] eqn:Ec; [|discriminate].
    destruct (utf8_encode s) as [bs'|]; [|discriminate].
    intros [= <-]. rewrite (utf8_decode_encode_cp mode c e bs' Ec).
    rewrite (IH bs' eq_refl). reflexivity.
Qed.

Lemma utf8_encode_cp_nonempty c e : utf8_encode_cp c = Ok e -> e <> [].
Proof.
  unfold utf8_encode_cp.
  repeat match goal with
         | |- context [if ?b then _ else _] => destruct b
         end; intros [= <-]; discriminate.
Qed.

Lemma utf8_encode_nil_inv s : utf8_encode s = Ok [] -> s = [].
Proof.
  destruct s as [|c s]; [reflexivity|]. cbn [utf8_encode].
  destruct (utf8_encode_cp c) as [e|] eqn:Ec; [|discriminate].
  destruct (utf8_encode s) as [bs'|]; [|discriminate].
  intros [= H]. apply app_eq_nil in H as [-> _].
  exfalso. eapply utf8_encode_cp_nonempty; [exact Ec | reflexivity].
Qed.

Lemma utf8_encode_cp_scalar c : is_scalar c -> exists e, utf8_encode_cp c = Ok e.
Proof.
  intros Hs. unfold utf8_encode_cp, is_scalar in *.
  destruct (Z.ltb_spec c 0); [lia|].
  destruct (Z.ltb_spec c 0x80); [eauto|].
  destruct (Z.ltb_spec c 0x800); [eauto|].
  destruct (Z.ltb_spec c 0x10000).
  - destruct (Z.leb_spec 0xD800 c); destruct (Z.ltb_spec c 0xE000);
      cbn [andb]; eauto. lia.
  - destruct (Z.ltb_spec c 0x110000); [eauto | lia].
Qed.

(** Every string of Unicode scalar values has a UTF-8 encoding. *)
Lemma utf8_encode_scalar s : Forall is_scalar s -> exists bs, utf8_encode s = Ok bs.
Proof.
  induction 1 as [|c s Hc _ [bs' IH]]; [exists []; reflexivity|].
  destruct (utf8_encode_cp_scalar c Hc) as [e He].
  exists (e ++ bs'). cbn [utf8_encode]. rewrite He, IH. reflexivity.
Qed.

Lemma write_i64_le_inv ptr v h h' :
  0 <= ptr -> write_i64_le ptr v h = (Ok tt, h') ->
  exists bs, pack_q v = Ok bs /\ length bs = 8%nat
             /\ ptr + 8 <= Z.of_nat (length (memory h))
             /\ h' = set_memory (splice (memory h) (Z.to_nat ptr) bs) h.
Proof.
  intros Hp. unfold write_i64_le, bind, lift.
  destruct (pack_q v) as [bs|] eqn:Ep; [|discriminate].
  rewrite write_bytes_spec by exact Hp.
  destruct (write_fits _ ptr bs) eqn:F; [|discriminate].
  intros [= <-]. exists bs.
  apply pack_q_inv in Ep as Hbs. destruct Hbs as [_ Hbs].
  assert (Hlen : length bs = 8%nat) by (rewrite Hbs; apply length_Z_to_le).
  apply write_fits_inv in F; [|intros ->; discriminate].
  repeat split; [exact Hlen | lia].
Qed.

Lemma write_i64_le_ok ptr v h :
  0 <= ptr -> - 2 ^ 63 <= v < 2 ^ 63 -> ptr + 8 <= Z.of_nat (length (memory h)) ->
  exists h', write_i64_le ptr v h = (Ok tt, h') /\ length (memory h') = length (memory h)
             /\ alloc h' = alloc h.
Proof.
  intros Hp Hv Hb. unfold write_i64_le, bind, lift.
  rewrite (pack_q_ok v Hv). rewrite write_bytes_spec by exact Hp.
  rewrite write_fits_true by (rewrite length_Z_to_le; lia).
  eexists. split; [reflexivity|]. simpl_host. rewrite length_splice. split; reflexivity.
Qed.

Lemma buf_getslice_splice_same buf q data :
  0 <= q -> q + Z.of_nat (length data) <= Z.of_nat (length buf) ->
  buf_getslice (splice buf (Z.to_nat q) data) q (q + Z.of_nat (length data)) = data.
Proof.
  intros Hq Hf. rewrite buf_getslice_in by (rewrite ?length_splice; lia).
  rewrite Nat2Z.id. apply read_splice_same. lia.
Qed.

Lemma peek_splice_same m q v bs :
  0 <= q -> pack_q v = Ok bs -> q + 8 <= Z.of_nat (length m) ->
  peek_i64 (splice m (Z.to_nat q) bs) q = Ok v
  /\ (0 <= v -> peek_u64 (splice m (Z.to_nat q) bs) q = Ok v).
Proof.
  intros Hq Hp Hb. unfold peek_i64, peek_u64.
  assert (Hlen : length bs = 8%nat).
  { apply pack_q_inv in Hp as [_ ->]. apply length_Z_to_le. }
  replace (q + 8) with (q + Z.of_nat (length bs)) by lia.
  rewrite buf_getslice_splice_same by lia. split.
  - apply unpack_q_pack_q. exact Hp.
  - intros Hv. apply unpack_Q_pack_q; assumption.
Qed.

Lemma peek_splice_other m q data p :
  0 <= q -> 0 <= p ->
  q + Z.of_nat (length data) <= Z.of_nat (length m) ->
  p + 8 <= Z.of_nat (length m) ->
  p + 8 <= q \/ q + Z.of_nat (length data) <= p ->
  peek_i64 (splice m (Z.to_nat q) data) p = peek_i64 m p
  /\ peek_u64 (splice m (Z.to_nat q) data) p = peek_u64 m p.
Proof.
  intros Hq Hp Hf Hb Hd. unfold peek_i64, peek_u64.
  rewrite buf_getslice_splice_other by lia. split; reflexivity.
Qed.

Lemma testbit_63_small v : 0 <= v < 2 ^ 63 -> Z.testbit v 63 = false.
Proof.
  intros Hv. destruct (Z.testbit v 63) eqn:E; [|reflexivity].
  pose proof (Z.testbit_spec' v 63 ltac:(lia)) as Hs. rewrite E in Hs.
  rewrite Z.div_small in Hs by lia. discriminate.
Qed.

(** What a successful [write_string_struct] has done. *)
Lemma write_string_struct_inv s h p h' :
  0 <= _ptr (alloc h) ->
  write_string_struct s h = (Ok p, h') ->
  exists enc b1 b2 b3,
    utf8_encode s = Ok enc
    /\ pack_q (_ptr (alloc h)) = Ok b1
    /\ pack_q (Z.of_nat (length enc)) = Ok b2
    /\ pack_q (Z.of_nat (length enc) + 1) = Ok b3
    /\ _ptr (alloc h) + Z.of_nat (length enc) + 1 <= p
    /\ p + 24 <= Z.of_nat (length (memory h))
    /\ memory h'
       = splice (splice (splice (splice (memory h) (Z.to_nat (_ptr (alloc h)))
                                   (enc ++ [x00]))
                           (Z.to_nat p) b1)
                   (Z.to_nat (p + 8)) b2)
           (Z.to_nat (p + 16)) b3.
Proof.
  intros Hc. unfold write_string_struct. unfold bind at 1. unfold lift at 1.
  destruct (utf8_encode s) as [enc|] eqn:Eenc; [|discriminate].
  unfold bind at 1.
  destruct (alloc_aligned_spec 1 (Z.of_nat (length enc) + 1) h ltac:(lia))
    as (dp & E1 & Hr1 & _).
  assert (dp = _ptr (alloc h)) as -> by lia. rewrite E1.
  unfold bind at 1. rewrite write_bytes_spec by exact Hc.
  destruct (write_fits _ _ (enc ++ [x00])) eqn:F1; [|discriminate].
  apply write_fits_inv in F1; [|intros H; apply app_eq_nil in H as [_ H]; discriminate].
  rewrite length_app in F1. cbn [length] in F1. revert F1. simpl_host. intros F1.
  set (h1 := set_memory _ _).
  unfold bind at 1.
  destruct (alloc_aligned_spec STRING_STRUCT_ALIGN STRING_STRUCT_SIZE h1)
    as (sp & E2 & Hr2 & _); [unfold STRING_STRUCT_ALIGN; lia|].
  rewrite E2. subst h1. revert Hr2. simpl_host. intros Hr2.
  set (h2 := set_alloc _ _).
  unfold bind at 1.
  destruct (write_i64_le sp _ h2) as [[[]|e] h3] eqn:W1; [|discriminate].
  apply write_i64_le_inv in W1 as (b1 & P1 & L1 & B1 & ->); [|lia].
  unfold bind at 1.
  destruct (write_i64_le (sp + 8) _ _) as [[[]|e] h4] eqn:W2; [|discriminate].
  apply write_i64_le_inv in W2 as (b2 & P2 & L2 & B2 & ->); [|lia].
  unfold bind at 1.
  destruct (write_i64_le (sp + 16) _ _) as [[[]|e] h5] eqn:W3; [|discriminate].
  apply write_i64_le_inv in W3 as (b3 & P3 & L3 & B3 & ->); [|lia].
  unfold ret. intros [= <- <-].
  exists enc, b1, b2, b3. subst h2. revert B3. simpl_host.
  rewrite !length_splice. intros B3.
  repeat split; try assumption; try lia.
Qed.

(** Reading back a struct that [write_string_struct] wrote. *)
Lemma write_then_read s h p h' :
  0 <= _ptr (alloc h) ->
  write_string_struct s h = (Ok p, h') ->
  fst (read_string_struct p h') = Ok s.
Proof.
  intros Hc Hw.
  destruct (write_string_struct_inv s h p h' Hc Hw)
    as (enc & b1 & b2 & b3 & Eenc & P1 & P2 & P3 & Hp & Hb & Hm).
  set (dp := _ptr (alloc h)) in *. set (n := Z.of_nat (length enc)) in *.
  set (m1 := splice (memory h) (Z.to_nat dp) (enc ++ [x00])) in *.
  set (m2 := splice m1 (Z.to_nat p) b1) in *.
  set (m3 := splice m2 (Z.to_nat (p + 8)) b2) in *.
  assert (L1 : length b1 = 8%nat) by (apply pack_q_inv in P1 as [_ ->]; apply length_Z_to_le).
  assert (L2 : length b2 = 8%nat) by (apply pack_q_inv in P2 as [_ ->]; apply length_Z_to_le).
  assert (L3 : length b3 = 8%nat) by (apply pack_q_inv in P3 as [_ ->]; apply length_Z_to_le).
  assert (Lm1 : length m1 = length (memory h)) by apply length_splice.
  assert (Lm2 : length m2 = length (memory h)) by (unfold m2; rewrite length_splice; exact Lm1).
  assert (Lm3 : length m3 = length (memory h)) by (unfold m3; rewrite length_splice; exact Lm2).
  assert (Hn : 0 <= n) by lia.
  (* capacity *)
  assert (Hcap : peek_u64 (memory h') (p + 16) = Ok (n + 1)).
  { rewrite Hm. apply (peek_splice_same m3 (p + 16) (n + 1) b3); [lia | exact P3 | lia | lia]. }
  (* data pointer *)
  assert (Hdp : peek_i64 (memory h') p = Ok dp).
  { rewrite Hm.
    rewrite (proj1 (peek_splice_other m3 (p + 16) b3 p ltac:(lia) ltac:(lia)
                      ltac:(lia) ltac:(lia) ltac:(lia))).
    unfold m3.
    rewrite (proj1 (peek_splice_other m2 (p + 8) b2 p ltac:(lia) ltac:(lia)
                      ltac:(lia) ltac:(lia) ltac:(lia))).
    apply (peek_splice_same m1 p dp b1); [lia | exact P1 | lia]. }
  (* length *)
  assert (Hlen : peek_i64 (memory h') (p + 8) = Ok n).
  { rewrite Hm.
    rewrite (proj1 (peek_splice_other m3 (p + 16) b3 (p + 8) ltac:(lia) ltac:(lia)
                      ltac:(lia) ltac:(lia) ltac:(lia))).
    apply (peek_splice_same m2 (p + 8) n b2); [lia | exact P2 | lia]. }
  assert (Hbit : Z.testbit (n + 1) 63 = false).
  { apply testbit_63_small. apply pack_q_inv in P3 as [? _]. lia. }
  rewrite (read_string_struct_heap p h' (n + 1) dp n Hcap Hbit Hdp Hlen).
  destruct (Z.leb_spec n 0) as [Hz|Hpos]; cbn [fst].
  - assert (enc = []) as -> by (apply length_zero_iff_nil; lia).
    apply utf8_encode_nil_inv in Eenc. subst s. reflexivity.
  - rewrite Hm.
    rewrite buf_getslice_splice_other by lia.
    unfold m3. rewrite buf_getslice_splice_other by lia.
    unfold m2. rewrite buf_getslice_splice_other by lia.
    unfold m1.
    replace (buf_getslice _ dp (dp + n)) with enc.
    + apply utf8_decode_encode. exact Eenc.
    + symmetry.
      pose proof (buf_getslice_splice_sub (memory h) dp (enc ++ [x00]) 0 n) as Hs.
      rewrite Z.add_0_r in Hs. rewrite Hs.
      * cbn [Z.to_nat drop]. unfold n. rewrite Nat2Z.id. apply take_app_length.
      * exact Hc.
      * lia.
      * lia.
      * rewrite length_app. cbn [length]. lia.
      * rewrite length_app. cbn [length]. lia.
Qed.

(** [write_string_struct] returns whenever the string can be encoded and
    the memory has room for the data and the struct after the cursor. *)
Lemma write_string_struct_ok s enc h :
  utf8_encode s = Ok enc ->
  0 <= _ptr (alloc h) ->
  _ptr (alloc h) + Z.of_nat (length enc) + 32 <= Z.of_nat (length (memory h)) ->
  Z.of_nat (length (memory h)) < 2 ^ 63 ->
  exists p h', write_string_struct s h = (Ok p, h').
Proof.
  intros Eenc Hc Hb Hs. unfold write_string_struct.
  unfold bind at 1. unfold lift at 1. rewrite Eenc.
  unfold bind at 1.
  destruct (alloc_aligned_spec 1 (Z.of_nat (length enc) + 1) h ltac:(lia))
    as (dp & E1 & Hr1 & _).
  assert (dp = _ptr (alloc h)) as -> by lia. rewrite E1.
  unfold bind at 1. rewrite write_bytes_spec by exact Hc.
  rewrite write_fits_true by (simpl_host; rewrite length_app; cbn [length]; lia).
  set (h1 := set_memory _ _).
  assert (Lh1 : length (memory h1) = length (memory h))
    by (unfold h1; simpl_host; apply length_splice).
  unfold bind at 1.
  destruct (alloc_aligned_spec STRING_STRUCT_ALIGN STRING_STRUCT_SIZE h1)
    as (sp & E2 & Hr2 & _); [unfold STRING_STRUCT_ALIGN; lia|].
  rewrite E2. revert Hr2. unfold h1 at 1 2. simpl_host.
  unfold STRING_STRUCT_ALIGN. intros Hr2.
  set (h2 := set_alloc _ h1).
  assert (Lh2 : length (memory h2) = length (memory h)) by exact Lh1.
  unfold bind at 1.
  destruct (write_i64_le_ok sp (_ptr (alloc h)) h2) as (h3 & W1 & Lh3 & _); [lia..|].
  rewrite W1. unfold bind at 1.
  destruct (write_i64_le_ok (sp + 8) (Z.of_nat (length enc)) h3)
    as (h4 & W2 & Lh4 & _); [lia..|].
  rewrite W2. unfold bind at 1.
  destruct (write_i64_le_ok (sp + 16) (Z.of_nat (length enc) + 1) h4)
    as (h5 & W3 & _); [lia..|].
  rewrite W3. unfold ret. eauto.
Qed.

(** C2. Encode-then-decode is the identity on strings.  With the
    allocator cursor a non-negative offset, whenever
    [write_string_struct] returns a struct for [s], [read_string_struct]
    on that struct yields exactly [s]; and for every string [s] of
    Unicode scalar values (the strings that have a UTF-8 encoding, of any
    length) [write_string_struct] does return such a struct as soon as
    the memory has room for the encoded bytes, the terminator and the
    struct after the cursor. *)
Theorem encode_decode_roundtrip (s : pystr) (h : host) :
  0 <= _ptr (alloc h) ->
  (forall p h', write_string_struct s h = (Ok p, h') ->
     fst (read_string_struct p h') = Ok s)
  /\ (Forall is_scalar s ->
      exists enc,
        utf8_encode s = Ok enc
        /\ (_ptr (alloc h) + Z.of_nat (length enc) + 32
            <= Z.of_nat (length (memory h)) ->
            Z.of_nat (length (memory h)) < 2 ^ 63 ->
            exists p h',
              write_string_struct s h = (Ok p, h')
              /\ fst (read_string_struct p h') = Ok s)).
Proof.
  intros Hc. split.
  - intros p h'. apply write_then_read. exact Hc.
  - intros Hs. destruct (utf8_encode_scalar s Hs) as [enc Eenc].
    exists enc. split; [exact Eenc|]. intros Hb Hsz.
    destruct (write_string_struct_ok s enc h Eenc Hc Hb Hsz) as (p & h' & Hw).
    exists p, h'. split; [exact Hw|].
    apply (write_then_read s h p h' Hc Hw).
Qed.

Lemma encode_decode_roundtrip_witness :
  let s := [104; 233; 8364; 128512] in
  let h := mkHost (replicate 64 xff) (mkAlloc 5) [] true false [] [] in
  let r := write_string_struct s h in
  utf8_encode s = Ok [x68; xc3; xa9; xe2; x82; xac; xf0; x9f; x98; x80]
  /\ fst r = Ok 16
  /\ fst (read_string_struct 16 (snd r)) = Ok s.
Proof.
  intros s h r.
  destruct (encode_decode_roundtrip s h ltac:(unfold h; simpl; lia)) as [Hrt _].
  split; [vm_compute; reflexivity|]. split; [vm_compute; reflexivity|].
  apply Hrt. vm_compute. reflexivity.
Defined.

(** ** Checks of the decoder on ill-formed input *)

(** One U+FFFD for each maximal ill-formed prefix: an overlong or
    surrogate lead is an error of its own, a truncated sequence is one
    error, and the byte that breaks a sequence is read again. *)
Example decode_replace_vectors :
  decode_replace [xe0; x80] = [0xFFFD; 0xFFFD]
  /\ decode_replace [xe1; x80] = [0xFFFD]
  /\ decode_replace [xf0; x90; x80] = [0xFFFD]
  /\ decode_replace [xed; xa0; x80] = [0xFFFD; 0xFFFD; 0xFFFD]
  /\ decode_replace [xc3; x41] = [0xFFFD; 0x41]
  /\ decode_replace [xf4; x90; x80; x80] = [0xFFFD; 0xFFFD; 0xFFFD; 0xFFFD]
  /\ decode_replace [xe2; x82; x41; xac] = [0xFFFD; 0x41; 0xFFFD]
  /\ decode_replace [x41; xe2; x82] = [0x41; 0xFFFD]
  /\ decode_replace [xe2; x82; xac] = [0x20AC].
Proof. repeat split. Qed.

Example utf8_decode_strict_vectors :
  utf8_decode Strict [xe2; x82; xac] = Ok [0x20AC]
  /\ utf8_decode Strict [xc0; x80] = Raise UnicodeDecodeError
  /\ utf8_decode Strict [xed; xa0; x80] = Raise UnicodeDecodeError
  /\ utf8_decode Strict [xe2; x82] = Raise UnicodeDecodeError
  /\ utf8_encode [0xD800] = Raise UnicodeEncodeError.
Proof. repeat split. Qed.

(** ** Scenarios *)

(** Encoding "ab" * 50 and decoding returns the original 100 code points. *)
Example roundtrip_ab50 :
  let s := concat (replicate 50 [97; 98]) in
  let h := mkHost (replicate 160 xff) (mkAlloc 16) [] true false [] [] in
  let r := write_string_struct s h in
  fst r = Ok 120 /\ fst (read_string_struct 120 (snd r)) = Ok s.
Proof. vm_compute. split; reflexivity. Qed.

(** [aligned_alloc(1, 0)] then [aligned_alloc(8, 24)]: the second pointer
    is 8-byte aligned and not below the first. *)
Example alloc_unaligned_then_aligned (c : Z) :
  exists p1 a1 p2 a2,
    aligned_alloc 1 0 (mkAlloc c) = (Ok p1, a1)
    /\ aligned_alloc 8 24 a1 = (Ok p2, a2)
    /\ p2 mod 8 = 0 /\ p1 <= p2.
Proof.
  destruct (aligned_alloc_spec 1 0 (mkAlloc c) ltac:(lia)) as (p1 & E1 & H1 & _).
  destruct (aligned_alloc_spec 8 24 (mkAlloc (p1 + 0)) ltac:(lia)) as (p2 & E2 & H2 & Hm).
  exists p1, (mkAlloc (p1 + 0)), p2, (mkAlloc (p2 + 24)).
  cbn [_ptr] in H1, H2. repeat split; try assumption. lia.
Qed.

(** * Further properties of the harness *)

(** ** Allocator *)

(** X1. With [align >= 1], [aligned_alloc] returns the least multiple of
    [align] that is not below the cursor and moves the cursor to that
    pointer plus [size]; with [align = 0] it raises [ZeroDivisionError]
    and leaves the cursor where it was. *)
Theorem aligned_alloc_least_multiple (align size : Z) (a : BumpAllocator) :
  (1 <= align ->
   exists p,
     aligned_alloc align size a = (Ok p, mkAlloc (p + size))
     /\ _ptr a <= p /\ p mod align = 0
     /\ forall q, _ptr a <= q -> q mod align = 0 -> p <= q)
  /\ (align = 0 -> aligned_alloc align size a = (Raise ZeroDivisionError, a)).
Proof.
  split.
  - intros Ha. destruct (aligned_alloc_spec align size a Ha) as (p & E & Hr & Hm).
    exists p. repeat split; try assumption; try lia.
    intros q Hq Hqm.
    apply Z.div_exact in Hm; [|lia]. apply Z.div_exact in Hqm; [|lia].
    destruct (Z_lt_le_dec q p) as [Hlt|]; [|assumption].
    assert (q / align < p / align) by nia.
    nia.
  - intros ->. reflexivity.
Qed.

Lemma aligned_alloc_least_multiple_witness :
  aligned_alloc 16 10 (mkAlloc 37) = (Ok 48, mkAlloc 58)
  /\ aligned_alloc 0 10 (mkAlloc 37) = (Raise ZeroDivisionError, mkAlloc 37).
Proof.
  destruct (aligned_alloc_least_multiple 16 10 (mkAlloc 37)) as [H1 _].
  destruct (aligned_alloc_least_multiple 0 10 (mkAlloc 37)) as [_ H0].
  split; [|apply H0; reflexivity].
  destruct (H1 ltac:(lia)) as (p & E & _). reflexivity.
Defined.

(** X2. Over any sequence of requests with [align >= 1] and [size >= 0]
    the cursor ends at least the sum of the sizes above where it started,
    and at most that sum plus [align - 1] bytes of padding per request. *)
Theorem alloc_seq_cursor_bounds (reqs : list (Z * Z)) (a : BumpAllocator) :
  Forall (fun r => 1 <= fst r /\ 0 <= snd r) reqs ->
  _ptr a + foldr Z.add 0 (map snd reqs)
  <= _ptr (snd (alloc_seq reqs a))
  <= _ptr a + foldr Z.add 0 (map (fun r => snd r + (fst r - 1)) reqs).
Proof.
  intros Hv. revert a. induction Hv as [|[align size] reqs [Ha Hs] _ IH]; intros a.
  - simpl. lia.
  - simpl in Ha, Hs. destruct (aligned_alloc_spec align size a Ha) as (p & E & Hr & _).
    cbn [alloc_seq]. rewrite E. specialize (IH (mkAlloc (p + size))).
    destruct (alloc_seq reqs (mkAlloc (p + size))) as [out a''].
    cbn [snd fst map foldr _ptr] in IH |- *. lia.
Qed.

Lemma alloc_seq_cursor_bounds_witness :
  let reqs := [(1, 3); (8, 24); (4, 0)] in
  100 + 27 <= _ptr (snd (alloc_seq reqs (mkAlloc 100))) <= 100 + 37.
Proof.
  apply (alloc_seq_cursor_bounds [(1, 3); (8, 24); (4, 0)] (mkAlloc 100)).
  repeat constructor; simpl; lia.
Defined.

(** ** Integer helpers *)

(** X3. For every unsigned 64-bit [v], [_to_signed_64 v] lies in the
    signed 64-bit range, is congruent to [v] modulo 2^64 and equals [v]
    below 2^63; it can be packed with "<q", and the packed bytes read as
    [v] under "<Q" and as [_to_signed_64 v] under "<q".  A value of 2^63
    or more cannot be packed with "<q" directly. *)
Theorem to_signed_64_packs (v : Z) :
  0 <= v < 2 ^ 64 ->
  (- 2 ^ 63 <= _to_signed_64 v < 2 ^ 63)
  /\ (_to_signed_64 v) mod 2 ^ 64 = v
  /\ (v < 2 ^ 63 -> _to_signed_64 v = v)
  /\ (2 ^ 63 <= v -> pack_q v = Raise StructError)
  /\ exists bs,
      pack_q (_to_signed_64 v) = Ok bs
      /\ unpack_Q bs = Ok v
      /\ unpack_q bs = Ok (_to_signed_64 v).
Proof.
  intros Hv.
  assert (Hr : - 2 ^ 63 <= _to_signed_64 v < 2 ^ 63).
  { unfold _to_signed_64. destruct (Z.leb_spec (2 ^ 63) v); lia. }
  assert (Hm : (_to_signed_64 v) mod 2 ^ 64 = v).
  { unfold _to_signed_64. destruct (Z.leb_spec (2 ^ 63) v).
    - replace (v - 2 ^ 64) with (v + (-1) * 2 ^ 64) by lia.
      rewrite Z.mod_add by lia. apply Z.mod_small. lia.
    - apply Z.mod_small. lia. }
  split; [exact Hr|]. split; [exact Hm|]. split.
  { intros Hs. unfold _to_signed_64. destruct (Z.leb_spec (2 ^ 63) v); lia. }
  split.
  { intros Hb. unfold pack_q. destruct (Z.ltb_spec v (2 ^ 63)); [lia|].
    rewrite andb_false_r. reflexivity. }
  exists (Z_to_le 8 ((_to_signed_64 v) mod 2 ^ 64)).
  pose proof (pack_q_ok _ Hr) as Hp. split; [exact Hp|]. split.
  - rewrite unpack_Q_to_le, Z.mod_mod, Hm by lia. reflexivity.
  - apply unpack_q_pack_q. exact Hp.
Qed.

Lemma to_signed_64_packs_witness :
  _to_signed_64 (2 ^ 64 - 1) = -1
  /\ pack_q (2 ^ 64 - 1) = Raise StructError
  /\ exists bs, pack_q (_to_signed_64 (2 ^ 64 - 1)) = Ok bs
                /\ unpack_Q bs = Ok (2 ^ 64 - 1).
Proof.
  destruct (to_signed_64_packs (2 ^ 64 - 1) ltac:(lia))
    as (_ & _ & _ & Hf & bs & Hp & Hu & _).
  split; [reflexivity|]. split; [apply Hf; lia|].
  exists bs. split; assumption.
Defined.

(** X4. [_i32_wrap] maps every integer to the signed 32-bit integer that
    is congruent to it modulo 2^32: the result lies in [-2^31, 2^31), it
    is the argument itself when that already lies there, and wrapping
    twice is wrapping once. *)
Theorem i32_wrap_signed (x : Z) :
  (- 2 ^ 31 <= _i32_wrap x < 2 ^ 31)
  /\ (_i32_wrap x) mod 2 ^ 32 = x mod 2 ^ 32
  /\ (- 2 ^ 31 <= x < 2 ^ 31 -> _i32_wrap x = x)
  /\ _i32_wrap (_i32_wrap x) = _i32_wrap x.
Proof.
  assert (Hw : forall y, _i32_wrap y
                         = if 2 ^ 31 <=? y mod 2 ^ 32 then y mod 2 ^ 32 - 2 ^ 32
                           else y mod 2 ^ 32).
  { intros y. unfold _i32_wrap. change 0xFFFFFFFF with (Z.ones 32).
    rewrite Z.land_ones by lia. reflexivity. }
  assert (Hrange : forall y, - 2 ^ 31 <= _i32_wrap y < 2 ^ 31).
  { intros y. rewrite Hw. pose proof (Z.mod_pos_bound y (2 ^ 32) ltac:(lia)).
    destruct (Z.leb_spec (2 ^ 31) (y mod 2 ^ 32)); lia. }
  assert (Hid : forall y, - 2 ^ 31 <= y < 2 ^ 31 -> _i32_wrap y = y).
  { intros y Hy. rewrite Hw. destruct (Z_lt_le_dec y 0) as [Hn|Hn].
    - replace (y mod 2 ^ 32) with (y + 2 ^ 32).
      + destruct (Z.leb_spec (2 ^ 31) (y + 2 ^ 32)); lia.
      + replace y with (y + 2 ^ 32 + (-1) * 2 ^ 32) at 2 by lia.
        rewrite Z.mod_add by lia. symmetry. apply Z.mod_small. lia.
    - rewrite Z.mod_small by lia. destruct (Z.leb_spec (2 ^ 31) y); lia. }
  split; [apply Hrange|]. split.
  { rewrite Hw. pose proof (Z.mod_pos_bound x (2 ^ 32) ltac:(lia)).
    destruct (Z.leb_spec (2 ^ 31) (x mod 2 ^ 32)).
    - replace (x mod 2 ^ 32 - 2 ^ 32) with (x mod 2 ^ 32 + (-1) * 2 ^ 32) by lia.
      rewrite Z.mod_add by lia. apply Z.mod_mod. lia.
    - apply Z.mod_mod. lia. }
  split; [apply Hid|]. apply Hid, Hrange.
Qed.

Lemma i32_wrap_signed_witness :
  _i32_wrap (-5) = -5 /\ _i32_wrap (2 ^ 31) = - 2 ^ 31 /\ _i32_wrap (2 ^ 32 + 7) = 7.
Proof.
  destruct (i32_wrap_signed (-5)) as (_ & _ & Hid & _).
  split; [apply Hid; lia|]. split; reflexivity.
Defined.

(** ** 64-bit fields in memory *)

Lemma le_to_Z_range bs : 0 <= le_to_Z bs < 256 ^ Z.of_nat (length bs).
Proof.
  induction bs as [|b bs IH].
  - simpl. lia.
  - cbn [le_to_Z length]. rewrite Nat2Z.inj_succ, Z.pow_succ_r by lia.
    pose proof (byte_to_Z_range b). lia.
Qed.

(** X5. Writing a signed 64-bit value with [write_i64_le] inside memory
    succeeds, and reading the same address back gives the value with
    [read_i64_le] and its residue modulo 2^64 with [read_u64_le]; the
    memory keeps its size and every 8-byte field that does not overlap
    the written one reads as before.  A value outside the signed 64-bit
    range raises [StructError] and leaves the state as it was. *)
Theorem write_read_i64_le (ptr v : Z) (h : host) :
  0 <= ptr -> ptr + 8 <= Z.of_nat (length (memory h)) ->
  (- 2 ^ 63 <= v < 2 ^ 63 ->
   exists h',
     write_i64_le ptr v h = (Ok tt, h')
     /\ fst (read_i64_le ptr h') = Ok v
     /\ fst (read_u64_le ptr h') = Ok (v mod 2 ^ 64)
     /\ length (memory h') = length (memory h)
     /\ forall q, 0 <= q -> q + 8 <= Z.of_nat (length (memory h)) ->
                  q + 8 <= ptr \/ ptr + 8 <= q ->
                  fst (read_i64_le q h') = fst (read_i64_le q h)
                  /\ fst (read_u64_le q h') = fst (read_u64_le q h))
  /\ (~ (- 2 ^ 63 <= v < 2 ^ 63) -> write_i64_le ptr v h = (Raise StructError, h)).
Proof.
  intros Hp Hb. split.
  - intros Hv. pose proof (pack_q_ok v Hv) as Hpk.
    exists (set_memory (splice (memory h) (Z.to_nat ptr) (Z_to_le 8 (v mod 2 ^ 64))) h).
    split.
    { unfold write_i64_le, bind, lift. rewrite Hpk.
      rewrite write_bytes_spec by exact Hp.
      rewrite write_fits_true by (rewrite length_Z_to_le; lia). reflexivity. }
    rewrite !read_i64_le_eq, !read_u64_le_eq. simpl_host.
    destruct (peek_splice_same (memory h) ptr v _ Hp Hpk Hb) as [Hi _].
    split; [exact Hi|]. split.
    { unfold peek_u64.
      replace (ptr + 8) with (ptr + Z.of_nat (length (Z_to_le 8 (v mod 2 ^ 64))))
        by (rewrite length_Z_to_le; lia).
      rewrite buf_getslice_splice_same by (rewrite ?length_Z_to_le; lia).
      rewrite unpack_Q_to_le, Z.mod_mod by lia. reflexivity. }
    split; [apply length_splice|].
    intros q Hq Hqb Hd. rewrite !read_i64_le_eq, !read_u64_le_eq. simpl_host.
    apply peek_splice_other; rewrite ?length_Z_to_le; lia.
  - intros Hv. unfold write_i64_le, bind, lift, pack_q.
    destruct (Z.leb_spec (- 2 ^ 63) v); destruct (Z.ltb_spec v (2 ^ 63));
      cbn [andb]; try reflexivity. lia.
Qed.

Lemma write_read_i64_le_witness :
  let h := mkHost (replicate 16 xff) (mkAlloc 0) [] true false [] [] in
  exists h',
    write_i64_le 8 (-2) h = (Ok tt, h')
    /\ fst (read_i64_le 8 h') = Ok (-2)
    /\ fst (read_u64_le 8 h') = Ok (2 ^ 64 - 2)
    /\ fst (read_i64_le 0 h') = Ok (-1).
Proof.
  intros h.
  destruct (write_read_i64_le 8 (-2) h ltac:(lia) ltac:(simpl; lia)) as [Hw _].
  destruct (Hw ltac:(lia)) as (h' & E & Hi & Hu & _ & Hf).
  exists h'. split; [exact E|]. split; [exact Hi|]. split; [exact Hu|].
  rewrite (proj1 (Hf 0 ltac:(lia) ltac:(simpl; lia) ltac:(lia))). reflexivity.
Defined.

(** X6. [read_i64_le] is [read_u64_le] followed by [_to_signed_64].
    With [0 <= ptr], both raise [StructError] when fewer than 8 bytes of
    memory lie at [ptr]; otherwise [read_u64_le] returns a value in
    [0, 2^64) and [read_i64_le] a value in [-2^63, 2^63). *)
Theorem read_64_bounds (ptr : Z) (h : host) :
  fst (read_i64_le ptr h) = result_map _to_signed_64 (fst (read_u64_le ptr h))
  /\ (0 <= ptr -> Z.of_nat (length (memory h)) < ptr + 8 ->
      fst (read_u64_le ptr h) = Raise StructError
      /\ fst (read_i64_le ptr h) = Raise StructError)
  /\ (0 <= ptr -> ptr + 8 <= Z.of_nat (length (memory h)) ->
      exists u,
        fst (read_u64_le ptr h) = Ok u /\ 0 <= u < 2 ^ 64
        /\ fst (read_i64_le ptr h) = Ok (_to_signed_64 u)
        /\ - 2 ^ 63 <= _to_signed_64 u < 2 ^ 63).
Proof.
  split; [reflexivity|]. rewrite read_i64_le_eq, read_u64_le_eq. cbn [fst].
  unfold peek_i64, peek_u64, unpack_q. split.
  - intros Hp Hs.
    assert (Hl : (length (buf_getslice (memory h) ptr (ptr + 8)) <> 8)%nat).
    { unfold buf_getslice, slice_adjust. rewrite length_take, length_drop.
      destruct (Z.ltb_spec ptr 0), (Z.ltb_spec (ptr + 8) 0); lia. }
    unfold unpack_Q. apply Nat.eqb_neq in Hl. rewrite Hl. split; reflexivity.
  - intros Hp Hb.
    pose proof (length_buf_getslice_in (memory h) ptr 8 Hp ltac:(lia) Hb) as Hl.
    change (Z.to_nat 8) with 8%nat in Hl.
    unfold unpack_Q. rewrite Hl. cbn [Nat.eqb result_map].
    pose proof (le_to_Z_range (buf_getslice (memory h) ptr (ptr + 8))) as Hr.
    rewrite Hl in Hr. change (256 ^ Z.of_nat 8) with (2 ^ 64) in Hr.
    eexists. split; [reflexivity|]. split; [exact Hr|]. split; [reflexivity|].
    unfold _to_signed_64.
    destruct (Z.leb_spec (2 ^ 63) (le_to_Z (buf_getslice (memory h) ptr (ptr + 8)))); lia.
Qed.

Lemma read_64_bounds_witness :
  let h := mkHost (replicate 10 xff) (mkAlloc 0) [] true false [] [] in
  fst (read_u64_le 3 h) = Raise StructError
  /\ exists u, fst (read_u64_le 2 h) = Ok u /\ 0 <= u < 2 ^ 64.
Proof.
  intros h.
  destruct (read_64_bounds 3 h) as (_ & Hs & _).
  destruct (read_64_bounds 2 h) as (_ & _ & Hin).
  split; [apply Hs; simpl; lia|].
  destruct (Hin ltac:(lia) ltac:(simpl; lia)) as (u & Hu & Hr & _).
  exists u. split; assumption.
Defined.

(** ** Raw byte access *)

Lemma store_byte_preserves idx b h :
  let h' := snd (store_byte idx b h) in
  length (memory h') = length (memory h) /\ alloc h' = alloc h
  /\ captured_stdout h' = captured_stdout h /\ inst_wrapper h' = inst_wrapper h
  /\ stderr_text h' = stderr_text h /\ mem_reads h' = mem_reads h.
Proof.
  unfold store_byte, buf_setitem.
  destruct ((_ <? 0) || _); cbn [snd]; simpl_host; [repeat split|].
  rewrite length_insert. repeat split.
Qed.

Lemma write_bytes_from_preserves ptr i data h :
  let h' := snd (write_bytes_from ptr i data h) in
  length (memory h') = length (memory h) /\ alloc h' = alloc h
  /\ captured_stdout h' = captured_stdout h /\ inst_wrapper h' = inst_wrapper h
  /\ stderr_text h' = stderr_text h /\ mem_reads h' = mem_reads h.
Proof.
  revert i h. induction data as [|b rest IH]; intros i h.
  - cbn. repeat split.
  - cbn [write_bytes_from]. unfold bind.
    pose proof (store_byte_preserves (ptr + i) b h) as Hs.
    destruct (store_byte (ptr + i) b h) as [[[]|e] h1]; cbn [snd] in Hs |- *.
    + specialize (IH (i + 1) h1). cbv zeta in IH.
      destruct Hs as (<- & <- & <- & <- & <- & <-). exact IH.
    + exact Hs.
Qed.

Lemma write_bytes_from_result ptr i data h :
  fst (write_bytes_from ptr i data h) = Ok tt
  \/ fst (write_bytes_from ptr i data h) = Raise IndexError.
Proof.
  revert i h. induction data as [|b rest IH]; intros i h.
  - left. reflexivity.
  - cbn [write_bytes_from]. unfold bind.
    destruct (store_byte (ptr + i) b h) as [[[]|e] h1] eqn:E.
    + apply IH.
    + right. unfold store_byte, buf_setitem in E.
      destruct ((_ <? 0) || _); inversion E. reflexivity.
Qed.

(** X7. Whatever the pointer and the data, and whether it succeeds or
    fails, [write_bytes] keeps the size of memory and touches nothing
    but memory: the allocator, the captured output, the error stream
    and the read trace are as before.  It either returns or raises
    [IndexError], nothing else. *)
Theorem write_bytes_preserves (ptr : Z) (data : list byte) (h : host) :
  (length (memory (snd (write_bytes ptr data h))) = length (memory h)
   /\ alloc (snd (write_bytes ptr data h)) = alloc h
   /\ captured_stdout (snd (write_bytes ptr data h)) = captured_stdout h
   /\ inst_wrapper (snd (write_bytes ptr data h)) = inst_wrapper h
   /\ stderr_text (snd (write_bytes ptr data h)) = stderr_text h
   /\ mem_reads (snd (write_bytes ptr data h)) = mem_reads h)
  /\ (fst (write_bytes ptr data h) = Ok tt
      \/ fst (write_bytes ptr data h) = Raise IndexError).
Proof.
  split.
  - apply (write_bytes_from_preserves ptr 0 data h).
  - apply write_bytes_from_result.
Qed.

Lemma store_byte_neg idx b h :
  - Z.of_nat (length (memory h)) <= idx < 0 ->
  store_byte idx b h = store_byte (idx + Z.of_nat (length (memory h))) b h.
Proof.
  intros Hi. unfold store_byte.
  replace (buf_setitem (memory h) idx b)
    with (buf_setitem (memory h) (idx + Z.of_nat (length (memory h))) b);
    [reflexivity|].
  rewrite buf_setitem_nonneg by lia. unfold buf_setitem.
  assert (E : (idx <? 0) = true) by (apply Z.ltb_lt; lia).
  assert (E' : (idx + Z.of_nat (length (memory h)) <? 0) = false)
    by (apply Z.ltb_ge; lia).
  rewrite E. cbv beta zeta iota. rewrite E'. reflexivity.
Qed.

Lemma write_bytes_from_neg ptr i data h :
  - Z.of_nat (length (memory h)) <= ptr + i ->
  ptr + i + Z.of_nat (length data) <= 0 ->
  write_bytes_from ptr i data h
  = write_bytes_from (ptr + Z.of_nat (length (memory h))) i data h.
Proof.
  revert i h. induction data as [|b rest IH]; intros i h Hlo Hhi; [reflexivity|].
  cbn [length] in Hhi. cbn [write_bytes_from]. unfold bind.
  rewrite store_byte_neg by lia.
  replace (ptr + i + Z.of_nat (length (memory h)))
    with (ptr + Z.of_nat (length (memory h)) + i) by lia.
  pose proof (store_byte_preserves (ptr + Z.of_nat (length (memory h)) + i) b h)
    as (Hl & _).
  destruct (store_byte _ b h) as [[[]|e] h1]; [|reflexivity].
  cbn [snd] in Hl. rewrite <- Hl. apply IH; lia.
Qed.

(** X8. A negative pointer counts from the end of memory, but not alike
    for writes and reads.  With a memory of [n] bytes and [k] bytes of
    data, [0 < k <= n], [write_bytes(-k, data)] succeeds and stores the
    data in the last [k] bytes; reading them back with
    [read_bytes(-k, k)] returns no bytes at all (the slice stops at index
    0), whereas [read_bytes(n - k, k)] returns the data. *)
Theorem write_bytes_negative_ptr (data : list byte) (h : host) :
  let n := Z.of_nat (length (memory h)) in
  let k := Z.of_nat (length data) in
  0 < k <= n ->
  exists h',
    write_bytes (- k) data h = (Ok tt, h')
    /\ memory h' = splice (memory h) (Z.to_nat (n - k)) data
    /\ fst (read_bytes (- k) k h') = Ok []
    /\ fst (read_bytes (n - k) k h') = Ok data.
Proof.
  intros n k Hk. unfold write_bytes.
  rewrite write_bytes_from_neg by (fold n k; lia). fold n.
  replace (- k + n) with (n - k) by lia.
  rewrite write_bytes_from_spec by lia. rewrite Z.add_0_r.
  rewrite write_fits_true by (fold n k; lia).
  eexists. split; [reflexivity|]. simpl_host. split; [reflexivity|].
  unfold read_bytes. simpl_host. split.
  - f_equal. unfold buf_getslice, slice_adjust. rewrite length_splice. fold n.
    replace (- k + k) with 0 by lia.
    destruct (Z.ltb_spec (- k) 0); [|lia]. cbn [Z.ltb Z.compare].
    replace (Z.to_nat _) with 0%nat by lia. reflexivity.
  - f_equal. replace (n - k + k) with (n - k + Z.of_nat (length data)) by (fold k; lia).
    replace (Z.of_nat (length data)) with k at 1 by reflexivity.
    apply buf_getslice_splice_same; fold n k; lia.
Qed.

Lemma write_bytes_negative_ptr_witness :
  let h := mkHost [x41; x42; x43; x44] (mkAlloc 0) [] true false [] [] in
  exists h',
    write_bytes (-2) [x01; x02] h = (Ok tt, h')
    /\ memory h' = [x41; x42; x01; x02]
    /\ fst (read_bytes (-2) 2 h') = Ok []
    /\ fst (read_bytes 2 2 h') = Ok [x01; x02].
Proof.
  intros h. apply (write_bytes_negative_ptr [x01; x02] h). simpl. lia.
Defined.

Lemma splice_self buf p l :
  splice buf p (take l (drop p buf)) = buf.
Proof.
  apply list_eq. intros k.
  destruct (decide (p + length (take l (drop p buf)) <= length buf)%nat) as [Hf|Hf].
  - rewrite lookup_splice by exact Hf. case_decide as Hk; [|reflexivity].
    rewrite lookup_take_lt.
    + rewrite lookup_drop. f_equal. lia.
    + rewrite length_take, length_drop in Hk. lia.
  - rewrite length_take, length_drop in Hf.
    rewrite drop_ge by lia. rewrite take_nil, splice_nil. reflexivity.
Qed.

(** X9. Inside memory, [write_bytes] and [read_bytes] compose as stores
    and loads should: reading where the data was written returns the
    data, reading a range that does not overlap it returns what was
    there before, and writing back the bytes just read from a range
    leaves memory unchanged. *)
Theorem write_read_bytes_frame (q p len : Z) (data : list byte) (h : host) :
  0 <= q -> q + Z.of_nat (length data) <= Z.of_nat (length (memory h)) ->
  0 <= p -> 0 <= len -> p + len <= Z.of_nat (length (memory h)) ->
  fst (read_bytes q (Z.of_nat (length data)) (snd (write_bytes q data h))) = Ok data
  /\ (p + len <= q \/ q + Z.of_nat (length data) <= p ->
      fst (read_bytes p len (snd (write_bytes q data h)))
      = fst (read_bytes p len h))
  /\ (forall raw, fst (read_bytes p len h) = Ok raw ->
      write_bytes p raw h = (Ok tt, h)).
Proof.
  intros Hq Hqb Hp Hl Hpb.
  rewrite write_bytes_spec by exact Hq. unfold read_bytes. simpl_host.
  split; [|split].
  - f_equal. apply buf_getslice_splice_same; assumption.
  - intros Hd. f_equal. apply buf_getslice_splice_other; assumption.
  - intros raw [= <-]. rewrite write_bytes_spec by exact Hp.
    rewrite buf_getslice_in by assumption.
    rewrite write_fits_true by (rewrite length_take, length_drop; lia).
    rewrite splice_self, set_memory_id. reflexivity.
Qed.

Lemma write_read_bytes_frame_witness :
  let h := mkHost [x41; x42; x43; x44] (mkAlloc 0) [] true false [] [] in
  fst (read_bytes 1 2 (snd (write_bytes 1 [x01; x02] h))) = Ok [x01; x02]
  /\ fst (read_bytes 3 1 (snd (write_bytes 1 [x01; x02] h))) = Ok [x44].
Proof.
  intros h.
  destruct (write_read_bytes_frame 1 3 1 [x01; x02] h) as (H1 & H2 & _);
    try (unfold h; simpl; lia).
  split; [exact H1|]. rewrite H2 by (simpl; lia). reflexivity.
Defined.

(** ** Empty output structs *)

Lemma alloc_string_struct_eq h :
  0 <= _ptr (alloc h) ->
  exists p,
    _ptr (alloc h) <= p < _ptr (alloc h) + 8 /\ p mod 8 = 0
    /\ alloc_string_struct h
       = ((if p + 24 <=? Z.of_nat (length (memory h))
           then Ok p else Raise IndexError),
          set_memory (splice (memory h) (Z.to_nat p) (replicate 24 x00))
            (set_alloc (mkAlloc (p + 24)) h)).
Proof.
  intros Hc. unfold alloc_string_struct, bind.
  destruct (alloc_aligned_spec STRING_STRUCT_ALIGN STRING_STRUCT_SIZE h)
    as (p & E & Hr & Hm); [unfold STRING_STRUCT_ALIGN; lia|].
  unfold STRING_STRUCT_ALIGN in Hr, Hm. exists p.
  split; [exact Hr|]. split; [exact Hm|].
  rewrite E. rewrite write_bytes_spec by lia. simpl_host.
  change (Z.to_nat STRING_STRUCT_SIZE) with 24%nat.
  change STRING_STRUCT_SIZE with 24.
  unfold write_fits. cbn [replicate length]. change (Z.of_nat 24) with 24.
  destruct (p + 24 <=? Z.of_nat (length (memory h))); reflexivity.
Qed.

(** X10. With the cursor a non-negative offset, [alloc_string_struct]
    takes the first multiple of 8 at or after the cursor as the struct
    pointer and leaves the cursor 24 bytes past it.  When the 24 bytes
    lie within memory it fills them with zeros, returns the pointer and
    leaves every byte outside them as it was; when they do not, it
    raises [IndexError], and the cursor has moved all the same. *)
Theorem alloc_string_struct_contract (h : host) :
  0 <= _ptr (alloc h) ->
  exists p,
    _ptr (alloc h) <= p < _ptr (alloc h) + 8 /\ p mod 8 = 0
    /\ _ptr (alloc (snd (alloc_string_struct h))) = p + 24
    /\ (p + 24 <= Z.of_nat (length (memory h)) ->
        fst (alloc_string_struct h) = Ok p
        /\ buf_getslice (memory (snd (alloc_string_struct h))) p (p + 24)
           = replicate 24 x00
        /\ forall a l, 0 <= a -> 0 <= l -> a + l <= Z.of_nat (length (memory h)) ->
                       a + l <= p \/ p + 24 <= a ->
                       buf_getslice (memory (snd (alloc_string_struct h))) a (a + l)
                       = buf_getslice (memory h) a (a + l))
    /\ (Z.of_nat (length (memory h)) < p + 24 ->
        fst (alloc_string_struct h) = Raise IndexError).
Proof.
  intros Hc. destruct (alloc_string_struct_eq h Hc) as (p & Hr & Hm & E).
  exists p. rewrite E. simpl_host.
  split; [exact Hr|]. split; [exact Hm|]. split; [reflexivity|]. split.
  - intros Hb. destruct (Z.leb_spec (p + 24) (Z.of_nat (length (memory h)))); [|lia].
    split; [reflexivity|]. split.
    + apply (buf_getslice_splice_same (memory h) p (replicate 24 x00)); [lia|].
      rewrite length_replicate. lia.
    + intros a l Ha Hl Hab Hd.
      apply buf_getslice_splice_other; rewrite ?length_replicate; lia.
  - intros Hb. destruct (Z.leb_spec (p + 24) (Z.of_nat (length (memory h)))); [lia|].
    reflexivity.
Qed.

Lemma alloc_string_struct_contract_witness :
  let h := mkHost (replicate 40 xff) (mkAlloc 3) [] true false [] [] in
  let h2 := mkHost (replicate 40 xff) (mkAlloc 17) [] true false [] [] in
  fst (alloc_string_struct h) = Ok 8
  /\ _ptr (alloc (snd (alloc_string_struct h))) = 32
  /\ fst (alloc_string_struct h2) = Raise IndexError
  /\ _ptr (alloc (snd (alloc_string_struct h2))) = 48.
Proof.
  intros h h2.
  destruct (alloc_string_struct_contract h ltac:(unfold h; simpl; lia))
    as (p & Hr & Hm & Hc & Hok & _).
  destruct (alloc_string_struct_contract h2 ltac:(unfold h2; simpl; lia))
    as (p2 & Hr2 & Hm2 & Hc2 & _ & Hfail).
  assert (p = 8) as ->
    by (unfold h in Hr; cbn in Hr; apply Z.div_exact in Hm; lia).
  assert (p2 = 24) as ->
    by (unfold h2 in Hr2; cbn in Hr2; apply Z.div_exact in Hm2; lia).
  split; [apply Hok; unfold h; simpl; lia|]. split; [exact Hc|].
  split; [apply Hfail; unfold h2; simpl; lia | exact Hc2].
Defined.

Lemma alloc_structs_spec n : forall h ps h',
  0 <= _ptr (alloc h) ->
  alloc_structs n h = (Ok ps, h') ->
  length ps = n
  /\ Forall (fun p => p mod 8 = 0) ps
  /\ (forall p0, ps !! 0%nat = Some p0 ->
        _ptr (alloc h) <= p0 < _ptr (alloc h) + 8)
  /\ (forall i p q, ps !! i = Some p -> ps !! S i = Some q -> q = p + 24).
Proof.
  induction n as [|n IH]; intros h ps h' Hc.
  - cbn. intros [= <- <-]. split; [reflexivity|]. split; [constructor|].
    split; [intros p0 | intros i p q]; rewrite lookup_nil; discriminate.
  - cbn [alloc_structs]. unfold bind at 1.
    destruct (alloc_string_struct_eq h Hc) as (p & Hr & Hm & E). rewrite E.
    destruct (p + 24 <=? Z.of_nat (length (memory h))); [|discriminate].
    set (h1 := set_memory _ _). unfold bind at 1.
    destruct (alloc_structs n h1) as [[ps'|e] h2] eqn:E2; [|discriminate].
    unfold ret. intros [= <- <-].
    assert (Hc1 : _ptr (alloc h1) = p + 24) by reflexivity.
    destruct (IH h1 ps' h2 ltac:(lia) E2) as (Hl & Ha & H0 & Hg).
    split; [cbn; lia|]. split; [constructor; assumption|]. split.
    + intros p0 [= <-]. exact Hr.
    + intros [|i] p' q; cbn.
      * intros [= <-] Hq. specialize (H0 q Hq). rewrite Hc1 in H0.
        rewrite Forall_forall in Ha.
        pose proof (Ha q (list_elem_of_lookup_2 _ _ _ Hq)) as Hqm.
        apply Z.div_exact in Hm; [|lia]. apply Z.div_exact in Hqm; [|lia]. lia.
      * apply Hg.
Qed.

(** X11. When a run of [alloc_string_struct] calls all return (cursor a
    non-negative offset), every pointer is a multiple of 8 and each one
    is exactly 24 bytes after the one before: the structs are adjacent
    and never overlap. *)
Theorem alloc_structs_gap (n : nat) (h : host) (ps : list Z) (h' : host) :
  0 <= _ptr (alloc h) ->
  alloc_structs n h = (Ok ps, h') ->
  length ps = n
  /\ Forall (fun p => p mod 8 = 0) ps
  /\ (forall i p q, ps !! i = Some p -> ps !! S i = Some q -> q = p + 24).
Proof.
  intros Hc E. destruct (alloc_structs_spec n h ps h' Hc E) as (Hl & Ha & _ & Hg).
  repeat split; assumption.
Qed.

Lemma alloc_structs_gap_witness :
  let h := mkHost (replicate 100 xff) (mkAlloc 5) [] true false [] [] in
  fst (alloc_structs 3 h) = Ok [8; 32; 56]
  /\ forall i p q, [8; 32; 56] !! i = Some p -> [8; 32; 56] !! S i = Some q -> q = p + 24.
Proof.
  intros h. split; [vm_compute; reflexivity|].
  apply (alloc_structs_gap 3 h [8; 32; 56] (snd (alloc_structs 3 h))).
  - unfold h; simpl; lia.
  - vm_compute. reflexivity.
Defined.

(** ** Layout of a written string struct *)

Lemma write_string_struct_inv_state s h p h' :
  0 <= _ptr (alloc h) ->
  write_string_struct s h = (Ok p, h') ->
  exists enc,
    utf8_encode s = Ok enc
    /\ p mod 8 = 0
    /\ p < _ptr (alloc h) + Z.of_nat (length enc) + 1 + 8
    /\ alloc h' = mkAlloc (p + 24)
    /\ length (memory h') = length (memory h)
    /\ captured_stdout h' = captured_stdout h
    /\ inst_wrapper h' = inst_wrapper h
    /\ stderr_closed h' = stderr_closed h
    /\ mem_reads h' = mem_reads h.
Proof.
  intros Hc. unfold write_string_struct. unfold bind at 1. unfold lift at 1.
  destruct (utf8_encode s) as [enc|] eqn:Eenc; [|discriminate].
  unfold bind at 1.
  destruct (alloc_aligned_spec 1 (Z.of_nat (length enc) + 1) h ltac:(lia))
    as (dp & E1 & Hr1 & _).
  assert (dp = _ptr (alloc h)) as -> by lia. rewrite E1.
  unfold bind at 1. rewrite write_bytes_spec by exact Hc.
  destruct (write_fits _ _ (enc ++ [x00])) eqn:F1; [|discriminate].
  set (h1 := set_memory _ _).
  unfold bind at 1.
  destruct (alloc_aligned_spec STRING_STRUCT_ALIGN STRING_STRUCT_SIZE h1)
    as (sp & E2 & Hr2 & Hm2); [unfold STRING_STRUCT_ALIGN; lia|].
  rewrite E2. subst h1. revert Hr2. simpl_host.
  unfold STRING_STRUCT_ALIGN in *. unfold STRING_STRUCT_SIZE. intros Hr2.
  set (h2 := set_alloc _ _).
  unfold bind at 1.
  destruct (write_i64_le sp _ h2) as [[[]|e] h3] eqn:W1; [|discriminate].
  apply write_i64_le_inv in W1 as (b1 & P1 & L1 & B1 & ->); [|lia].
  unfold bind at 1.
  destruct (write_i64_le (sp + 8) _ _) as [[[]|e] h4] eqn:W2; [|discriminate].
  apply write_i64_le_inv in W2 as (b2 & P2 & L2 & B2 & ->); [|lia].
  unfold bind at 1.
  destruct (write_i64_le (sp + 16) _ _) as [[[]|e] h5] eqn:W3; [|discriminate].
  apply write_i64_le_inv in W3 as (b3 & P3 & L3 & B3 & ->); [|lia].
  unfold ret. intros [= <- <-].
  exists enc. subst h2. simpl_host. rewrite !length_splice.
  repeat split; try assumption; try lia.
Qed.

(** What memory holds after a successful [write_string_struct]. *)
Lemma write_string_struct_facts s h p h' :
  0 <= _ptr (alloc h) ->
  write_string_struct s h = (Ok p, h') ->
  exists enc,
    utf8_encode s = Ok enc
    /\ (_ptr (alloc h) + Z.of_nat (length enc) + 1 <= p
        /\ Z.of_nat (length enc) + 1 < 2 ^ 63
        /\ peek_i64 (memory h') p = Ok (_ptr (alloc h))
        /\ peek_i64 (memory h') (p + 8) = Ok (Z.of_nat (length enc))
        /\ peek_u64 (memory h') (p + 16) = Ok (Z.of_nat (length enc) + 1)
        /\ buf_getslice (memory h') (_ptr (alloc h))
             (_ptr (alloc h) + (Z.of_nat (length enc) + 1)) = enc ++ [x00])
    /\ agree_below (_ptr (alloc h)) (memory h) (memory h').
Proof.
  intros Hc Hw.
  destruct (write_string_struct_inv s h p h' Hc Hw)
    as (enc & b1 & b2 & b3 & Eenc & P1 & P2 & P3 & Hp & Hb & Hm).
  exists enc. split; [exact Eenc|].
  set (dp := _ptr (alloc h)) in *. set (n := Z.of_nat (length enc)) in *.
  set (m1 := splice (memory h) (Z.to_nat dp) (enc ++ [x00])) in *.
  set (m2 := splice m1 (Z.to_nat p) b1) in *.
  set (m3 := splice m2 (Z.to_nat (p + 8)) b2) in *.
  assert (L0 : Z.of_nat (length (enc ++ [x00])) = n + 1)
    by (rewrite length_app; cbn [length]; lia).
  assert (L1 : length b1 = 8%nat) by (apply pack_q_inv in P1 as [_ ->]; apply length_Z_to_le).
  assert (L2 : length b2 = 8%nat) by (apply pack_q_inv in P2 as [_ ->]; apply length_Z_to_le).
  assert (L3 : length b3 = 8%nat) by (apply pack_q_inv in P3 as [_ ->]; apply length_Z_to_le).
  assert (Lm1 : length m1 = length (memory h)) by apply length_splice.
  assert (Lm2 : length m2 = length (memory h)) by (unfold m2; rewrite length_splice; exact Lm1).
  assert (Lm3 : length m3 = length (memory h)) by (unfold m3; rewrite length_splice; exact Lm2).
  assert (Hn : 0 <= n) by lia.
  split.
  - rewrite Hm. split; [lia|].
    split; [apply pack_q_inv in P3 as [? _]; lia|]. split.
    { rewrite (proj1 (peek_splice_other m3 (p + 16) b3 p ltac:(lia) ltac:(lia)
                        ltac:(lia) ltac:(lia) ltac:(lia))).
      unfold m3.
      rewrite (proj1 (peek_splice_other m2 (p + 8) b2 p ltac:(lia) ltac:(lia)
                        ltac:(lia) ltac:(lia) ltac:(lia))).
      apply (peek_splice_same m1 p dp b1); [lia | exact P1 | lia]. }
    split.
    { rewrite (proj1 (peek_splice_other m3 (p + 16) b3 (p + 8) ltac:(lia) ltac:(lia)
                        ltac:(lia) ltac:(lia) ltac:(lia))).
      apply (peek_splice_same m2 (p + 8) n b2); [lia | exact P2 | lia]. }
    split.
    { apply (peek_splice_same m3 (p + 16) (n + 1) b3); [lia | exact P3 | lia | lia]. }
    rewrite buf_getslice_splice_other by lia.
    unfold m3. rewrite buf_getslice_splice_other by lia.
    unfold m2. rewrite buf_getslice_splice_other by lia.
    unfold m1. rewrite <- L0. apply buf_getslice_splice_same; lia.
  - split.
    { rewrite Hm, length_splice. exact Lm3. }
    intros a l Ha Hl Hal. rewrite Hm. fold dp in Hal.
    rewrite buf_getslice_splice_other by lia.
    unfold m3. rewrite buf_getslice_splice_other by lia.
    unfold m2. rewrite buf_getslice_splice_other by lia.
    unfold m1. apply buf_getslice_splice_other; lia.
Qed.

(** After a successful [write_string_struct], memory holds the struct. *)
Lemma write_string_struct_holds s h p h' :
  0 <= _ptr (alloc h) ->
  write_string_struct s h = (Ok p, h') ->
  exists enc, utf8_encode s = Ok enc /\ holds_string (memory h') p enc
              /\ agree_below (_ptr (alloc h)) (memory h) (memory h').
Proof.
  intros Hc Hw.
  destruct (write_string_struct_facts s h p h' Hc Hw)
    as (enc & Eenc & (Hp & Hn & Pi & Pl & Pc & Hd) & Hag).
  exists enc. split; [exact Eenc|]. split; [|exact Hag].
  exists (_ptr (alloc h)). cbv zeta. repeat split; assumption.
Qed.

Lemma buf_getslice_prefix m a l l' :
  0 <= a -> 0 <= l <= l' -> a + l' <= Z.of_nat (length m) ->
  buf_getslice m a (a + l) = take (Z.to_nat l) (buf_getslice m a (a + l')).
Proof.
  intros Ha Hl Hb. rewrite !buf_getslice_in by lia.
  rewrite take_take. f_equal. lia.
Qed.

(** A struct held in memory decodes to the string it was written for. *)
Lemma holds_string_read h p s enc :
  utf8_encode s = Ok enc -> holds_string (memory h) p enc ->
  fst (read_string_struct p h) = Ok s.
Proof.
  intros Eenc (dp & Hdp & Hp & Hn & Pi & Pl & Pc & Hd). cbv zeta in *.
  set (n := Z.of_nat (length enc)) in *.
  assert (Hbit : Z.testbit (n + 1) 63 = false) by (apply testbit_63_small; lia).
  rewrite (read_string_struct_heap p h (n + 1) dp n Pc Hbit Pi Pl).
  destruct (Z.leb_spec n 0) as [Hz|Hpos]; cbn [fst].
  - assert (enc = []) as -> by (apply length_zero_iff_nil; lia).
    apply utf8_encode_nil_inv in Eenc. subst s. reflexivity.
  - assert (Hlen : (length (buf_getslice (memory h) dp (dp + (n + 1))) = Z.to_nat (n + 1))%nat).
    { rewrite Hd, length_app. cbn [length]. lia. }
    assert (Hb : dp + (n + 1) <= Z.of_nat (length (memory h))).
    { pose proof (length_buf_getslice (memory h) dp (n + 1) ltac:(lia)) as [_ Hle].
      unfold buf_getslice, slice_adjust in Hlen.
      rewrite length_take, length_drop in Hlen.
      destruct (Z.ltb_spec dp 0), (Z.ltb_spec (dp + (n + 1)) 0); lia. }
    rewrite (buf_getslice_prefix (memory h) dp n (n + 1)) by lia.
    rewrite Hd. unfold n. rewrite Nat2Z.id, take_app_length.
    apply utf8_decode_encode. exact Eenc.
Qed.

Lemma holds_string_agree m m' p enc :
  0 <= p -> holds_string m p enc -> agree_below (p + 24) m m' ->
  holds_string m' p enc.
Proof.
  intros Hp0 (dp & Hdp & Hp & Hn & Pi & Pl & Pc & Hd) [Hlen Hag]. cbv zeta in *.
  exists dp. cbv zeta. unfold peek_i64, peek_u64 in *.
  rewrite !Hag by lia. repeat split; assumption.
Qed.

Lemma agree_below_trans c c' m1 m2 m3 :
  c <= c' -> agree_below c m1 m2 -> agree_below c' m2 m3 -> agree_below c m1 m3.
Proof.
  intros Hc [L1 A1] [L2 A2]. split; [congruence|].
  intros a l Ha Hl Hal. rewrite A2 by lia. apply A1; assumption.
Qed.

Lemma agree_below_refl c m : agree_below c m m.
Proof. split; reflexivity. Qed.

Lemma agree_below_weaken c c' m m' : c <= c' -> agree_below c' m m' -> agree_below c m m'.
Proof.
  intros Hc [L A]. split; [exact L|]. intros a l Ha Hl Hal. apply A; lia.
Qed.

Lemma holds_string_data m p enc :
  holds_string m p enc ->
  exists dp, peek_i64 m p = Ok dp
             /\ buf_getslice m dp (dp + Z.of_nat (length enc)) = enc.
Proof.
  intros (dp & Hdp & Hp & Hn & Pi & Pl & Pc & Hd). cbv zeta in *.
  exists dp. split; [exact Pi|].
  set (n := Z.of_nat (length enc)) in *.
  assert (Hlen : (length (buf_getslice m dp (dp + (n + 1))) = Z.to_nat (n + 1))%nat).
  { rewrite Hd, length_app. cbn [length]. lia. }
  assert (Hb : dp + (n + 1) <= Z.of_nat (length m)).
  { unfold buf_getslice, slice_adjust in Hlen.
    rewrite length_take, length_drop in Hlen.
    destruct (Z.ltb_spec dp 0), (Z.ltb_spec (dp + (n + 1)) 0); lia. }
  rewrite (buf_getslice_prefix m dp n (n + 1)) by lia.
  rewrite Hd. unfold n. rewrite Nat2Z.id. apply take_app_length.
Qed.

(** X12. A struct written by [write_string_struct] (cursor a
    non-negative offset) is always in heap form and laid out as follows:
    the struct pointer is the first multiple of 8 after the data buffer,
    the pointer field is the old cursor, the length field is the number
    of bytes of the UTF-8 encoding, the capacity field is that number
    plus one with bit 63 clear, the data buffer holds the encoding
    followed by a NUL byte, and the cursor ends 24 bytes past the struct
    pointer. *)
Theorem write_string_struct_layout (s : pystr) (h : host) (p : Z) (h' : host) :
  0 <= _ptr (alloc h) ->
  write_string_struct s h = (Ok p, h') ->
  exists enc,
    utf8_encode s = Ok enc
    /\ p mod 8 = 0
    /\ _ptr (alloc h) + Z.of_nat (length enc) + 1 <= p
       < _ptr (alloc h) + Z.of_nat (length enc) + 1 + 8
    /\ _ptr (alloc h') = p + 24
    /\ fst (read_i64_le p h') = Ok (_ptr (alloc h))
    /\ fst (read_i64_le (p + 8) h') = Ok (Z.of_nat (length enc))
    /\ fst (read_u64_le (p + 16) h') = Ok (Z.of_nat (length enc) + 1)
    /\ Z.testbit (Z.of_nat (length enc) + 1) 63 = false
    /\ fst (read_bytes (_ptr (alloc h)) (Z.of_nat (length enc) + 1) h')
       = Ok (enc ++ [x00]).
Proof.
  intros Hc Hw.
  destruct (write_string_struct_inv_state s h p h' Hc Hw)
    as (enc & Eenc & Hm & Hlt & Ha & _).
  destruct (write_string_struct_facts s h p h' Hc Hw)
    as (enc' & Eenc' & (Hp & Hn & Pi & Pl & Pc & Hd) & _).
  rewrite Eenc in Eenc'. injection Eenc' as <-.
  exists enc. split; [exact Eenc|]. split; [exact Hm|].
  split; [lia|]. split; [rewrite Ha; reflexivity|].
  rewrite !read_i64_le_eq, read_u64_le_eq. unfold read_bytes. cbn [fst].
  split; [exact Pi|]. split; [exact Pl|]. split; [exact Pc|].
  split; [apply testbit_63_small; lia|]. f_equal. exact Hd.
Qed.

Lemma write_string_struct_layout_witness :
  let h := mkHost (replicate 48 xff) (mkAlloc 3) [] true false [] [] in
  let r := write_string_struct [104; 105] h in
  fst r = Ok 8
  /\ fst (read_i64_le 8 (snd r)) = Ok 3
  /\ fst (read_i64_le 16 (snd r)) = Ok 2
  /\ fst (read_u64_le 24 (snd r)) = Ok 3
  /\ fst (read_bytes 3 3 (snd r)) = Ok [x68; x69; x00].
Proof.
  intros h r.
  destruct (write_string_struct_layout [104; 105] h 8 (snd r)
              ltac:(unfold h; simpl; lia) ltac:(vm_compute; reflexivity))
    as (enc & Eenc & _ & _ & _ & H1 & H2 & H3 & _ & H4).
  injection Eenc as <-.
  split; [vm_compute; reflexivity|].
  split; [exact H1|]. split; [exact H2|]. split; [exact H3 | exact H4].
Defined.

Lemma utf8_encode_cp_raise c e : utf8_encode_cp c = Raise e -> e = UnicodeEncodeError.
Proof.
  unfold utf8_encode_cp.
  repeat match goal with
         | |- context [if ?b then _ else _] => destruct b
         end; intros [= <-]; reflexivity.
Qed.

Lemma utf8_encode_surrogate s :
  Exists (fun c => 0xD800 <= c < 0xE000) s -> utf8_encode s = Raise UnicodeEncodeError.
Proof.
  induction 1 as [c s Hc | c s _ IH]; cbn [utf8_encode].
  - unfold utf8_encode_cp.
    destruct (Z.ltb_spec c 0); [reflexivity|].
    destruct (Z.ltb_spec c 0x80); [lia|]. destruct (Z.ltb_spec c 0x800); [lia|].
    destruct (Z.ltb_spec c 0x10000); [|lia].
    destruct (Z.leb_spec 0xD800 c); [|lia]. destruct (Z.ltb_spec c 0xE000); [|lia].
    reflexivity.
  - rewrite IH. destruct (utf8_encode_cp c) as [e|e] eqn:E; [reflexivity|].
    apply utf8_encode_cp_raise in E. subst e. reflexivity.
Qed.

(** X13. [write_string_struct] on a string that contains a surrogate
    code point raises [UnicodeEncodeError] before anything is allocated
    or written: the whole state is as it was. *)
Theorem write_string_struct_surrogate (s : pystr) (h : host) :
  Exists (fun c => 0xD800 <= c < 0xE000) s ->
  write_string_struct s h = (Raise UnicodeEncodeError, h).
Proof.
  intros Hs. unfold write_string_struct, bind, lift.
  rewrite (utf8_encode_surrogate s Hs). reflexivity.
Qed.

Lemma write_string_struct_surrogate_witness :
  let h := mkHost (replicate 48 xff) (mkAlloc 3) [] true false [] [] in
  write_string_struct [104; 0xD83D; 105] h = (Raise UnicodeEncodeError, h).
Proof.
  intros h. apply write_string_struct_surrogate.
  apply Exists_cons_tl, Exists_cons_hd. lia.
Defined.

(** X14. When the encoded bytes and their NUL terminator do not fit in
    memory after the cursor, [write_string_struct] raises [IndexError];
    the data buffer it allocated first is not given back: the cursor has
    moved past it. Memory keeps its size. *)
Theorem write_string_struct_no_room (s : pystr) (enc : list byte) (h : host) :
  utf8_encode s = Ok enc ->
  0 <= _ptr (alloc h) ->
  Z.of_nat (length (memory h)) < _ptr (alloc h) + Z.of_nat (length enc) + 1 ->
  fst (write_string_struct s h) = Raise IndexError
  /\ _ptr (alloc (snd (write_string_struct s h)))
     = _ptr (alloc h) + (Z.of_nat (length enc) + 1)
  /\ length (memory (snd (write_string_struct s h))) = length (memory h).
Proof.
  intros Eenc Hc Hb.
  assert (exists h', write_string_struct s h = (Raise IndexError, h')
                     /\ _ptr (alloc h') = _ptr (alloc h) + (Z.of_nat (length enc) + 1)
                     /\ length (memory h') = length (memory h))
    as (h' & E & H1 & H2); [|rewrite E; repeat split; assumption].
  unfold write_string_struct.
  unfold bind at 1. unfold lift at 1. rewrite Eenc.
  unfold bind at 1.
  destruct (alloc_aligned_spec 1 (Z.of_nat (length enc) + 1) h ltac:(lia))
    as (dp & E1 & Hr1 & _).
  assert (dp = _ptr (alloc h)) as -> by lia. rewrite E1.
  unfold bind at 1. rewrite write_bytes_spec by exact Hc.
  destruct (write_fits _ _ (enc ++ [x00])) eqn:F1.
  - apply write_fits_inv in F1; [|intros H; apply app_eq_nil in H as [_ H]; discriminate].
    rewrite length_app in F1. cbn [length] in F1. revert F1. simpl_host. lia.
  - eexists. split; [reflexivity|]. simpl_host. rewrite length_splice. split; reflexivity.
Qed.

Lemma write_string_struct_no_room_witness :
  let h := mkHost (replicate 4 xff) (mkAlloc 3) [] true false [] [] in
  fst (write_string_struct [104; 105] h) = Raise IndexError
  /\ _ptr (alloc (snd (write_string_struct [104; 105] h))) = 3 + (2 + 1)
  /\ length (memory (snd (write_string_struct [104; 105] h))) = 4%nat.
Proof.
  intros h.
  apply (write_string_struct_no_room [104; 105] [x68; x69] h);
    [reflexivity | unfold h; simpl; lia | unfold h; simpl; lia].
Defined.

(** ** Many strings in one session *)

Lemma write_strings_spec ss : forall h ps h',
  0 <= _ptr (alloc h) ->
  write_strings ss h = (Ok ps, h') ->
  _ptr (alloc h) <= _ptr (alloc h')
  /\ agree_below (_ptr (alloc h)) (memory h) (memory h')
  /\ length ps = length ss
  /\ forall i s p, ss !! i = Some s -> ps !! i = Some p ->
       exists enc, utf8_encode s = Ok enc /\ 0 <= p
                   /\ holds_string (memory h') p enc.
Proof.
  induction ss as [|s ss IH]; intros h ps h' Hc.
  - cbn. intros [= <- <-]. split; [lia|]. split; [apply agree_below_refl|].
    split; [reflexivity|]. intros i s p. rewrite lookup_nil. discriminate.
  - cbn [write_strings]. unfold bind at 1.
    destruct (write_string_struct s h) as [[p|e] h1] eqn:Ew; [|discriminate].
    unfold bind at 1.
    destruct (write_strings ss h1) as [[ps'|e] h2] eqn:Es; [|discriminate].
    unfold ret. intros [= <- <-].
    destruct (write_string_struct_inv_state s h p h1 Hc Ew)
      as (enc & Eenc & _ & _ & Ha & _).
    destruct (write_string_struct_holds s h p h1 Hc Ew)
      as (enc' & Eenc' & Hh & Hag).
    rewrite Eenc in Eenc'. injection Eenc' as <-.
    assert (Hp0 : _ptr (alloc h) <= p /\ 0 <= p).
    { destruct Hh as (dp & Hdp & Hp & _). cbv zeta in Hp.
      destruct (write_string_struct_facts s h p h1 Hc Ew) as (e2 & _ & (Hp2 & _) & _).
      lia. }
    assert (Hc1 : _ptr (alloc h1) = p + 24) by (rewrite Ha; reflexivity).
    destruct (IH h1 ps' h2 ltac:(lia) Es) as (Hmono & Hag' & Hlen & Hall).
    rewrite Hc1 in Hmono, Hag'.
    split; [lia|]. split.
    { apply (agree_below_trans _ (p + 24) _ (memory h1)); [lia | exact Hag | exact Hag']. }
    split; [cbn; lia|].
    intros [|i] s' p'; cbn.
    + intros [= <-] [= <-]. exists enc. split; [exact Eenc|]. split; [lia|].
      apply (holds_string_agree (memory h1)); [lia | exact Hh | exact Hag'].
    + apply Hall.
Qed.

(** X15. When a run of [write_string_struct] calls all return (cursor a
    non-negative offset), every string can still be read back from its
    own pointer after the last call: later writes never disturb earlier
    structs or their data. *)
Theorem write_strings_read_back (ss : list pystr) (h : host) (ps : list Z) (h' : host) :
  0 <= _ptr (alloc h) ->
  write_strings ss h = (Ok ps, h') ->
  length ps = length ss
  /\ forall i s p, ss !! i = Some s -> ps !! i = Some p ->
       fst (read_string_struct p h') = Ok s.
Proof.
  intros Hc E. destruct (write_strings_spec ss h ps h' Hc E) as (_ & _ & Hl & Hall).
  split; [exact Hl|]. intros i s p Hs Hp.
  destruct (Hall i s p Hs Hp) as (enc & Eenc & _ & Hh).
  apply (holds_string_read h' p s enc Eenc Hh).
Qed.

Lemma write_strings_read_back_witness :
  let h := mkHost (replicate 120 xff) (mkAlloc 1) [] true false [] [] in
  let ss := [[104; 105]; []; [233; 8364]] in
  let r := write_strings ss h in
  fst r = Ok [8; 40; 72]
  /\ fst (read_string_struct 8 (snd r)) = Ok [104; 105]
  /\ fst (read_string_struct 40 (snd r)) = Ok []
  /\ fst (read_string_struct 72 (snd r)) = Ok [233; 8364].
Proof.
  intros h ss r.
  destruct (write_strings_read_back ss h [8; 40; 72] (snd r)
              ltac:(unfold h; simpl; lia) ltac:(vm_compute; reflexivity))
    as [_ Hall].
  split; [vm_compute; reflexivity|].
  split; [apply (Hall 0%nat); reflexivity|].
  split; [apply (Hall 1%nat); reflexivity | apply (Hall 2%nat); reflexivity].
Defined.

Lemma alloc_string_struct_reads_empty h p h' :
  0 <= _ptr (alloc h) ->
  alloc_string_struct h = (Ok p, h') ->
  read_string_struct p h'
  = (Ok [], log_reads [(p + 16, 8); (p, 8); (p + 8, 8)] h').
Proof.
  intros Hc E.
  destruct (alloc_string_struct_inv h p h' Hc E) as (Hp & Hb & Hm).
  destruct (peek_zero_struct (memory h) p 16 Hp Hb ltac:(lia)) as [Hcap _].
  destruct (peek_zero_struct (memory h) p 0 Hp Hb ltac:(lia)) as [_ Hdp].
  destruct (peek_zero_struct (memory h) p 8 Hp Hb ltac:(lia)) as [_ Hlen].
  rewrite Z.add_0_r in Hdp. rewrite <- Hm in Hcap, Hdp, Hlen.
  rewrite (read_string_struct_heap p h' 0 0 0 Hcap eq_refl Hdp Hlen).
  reflexivity.
Qed.

(** X16. The input/output pipeline of the tests: a string is written,
    then an empty output struct is allocated.  When both calls return
    (cursor a non-negative offset) the two structs do not overlap, the
    input still reads back as the string and the output reads as the
    empty string. *)
Theorem write_then_alloc_pipeline (s : pystr) (h h1 h2 : host) (in_ptr out_ptr : Z) :
  0 <= _ptr (alloc h) ->
  write_string_struct s h = (Ok in_ptr, h1) ->
  alloc_string_struct h1 = (Ok out_ptr, h2) ->
  out_ptr = in_ptr + 24
  /\ fst (read_string_struct in_ptr h2) = Ok s
  /\ fst (read_string_struct out_ptr h2) = Ok [].
Proof.
  intros Hc Ew Ea.
  destruct (write_string_struct_inv_state s h in_ptr h1 Hc Ew)
    as (enc & Eenc & Hm & _ & Hal & _).
  destruct (write_string_struct_facts s h in_ptr h1 Hc Ew)
    as (enc' & Eenc' & (Hp & _) & _).
  destruct (write_string_struct_holds s h in_ptr h1 Hc Ew)
    as (enc'' & Eenc'' & Hh & _).
  rewrite Eenc in Eenc', Eenc''. injection Eenc' as <-. injection Eenc'' as <-.
  assert (Hc1 : _ptr (alloc h1) = in_ptr + 24) by (rewrite Hal; reflexivity).
  assert (Hc1' : 0 <= _ptr (alloc h1)) by lia.
  destruct (alloc_string_struct_eq h1 Hc1') as (p & Hr & Hpm & E).
  rewrite E in Ea. rewrite Hc1 in Hr.
  assert (p = in_ptr + 24) as ->.
  { apply Z.div_exact in Hm; [|lia]. apply Z.div_exact in Hpm; [|lia]. lia. }
  destruct (Z.leb_spec (in_ptr + 24 + 24) (Z.of_nat (length (memory h1))));
    [|discriminate].
  injection Ea as <- <-. split; [reflexivity|]. split.
  - apply (holds_string_read _ in_ptr s enc Eenc).
    apply (holds_string_agree (memory h1)); [lia | exact Hh |].
    simpl_host. split; [apply length_splice|].
    intros a l Ha Hl Hal'. apply buf_getslice_splice_other;
      rewrite ?length_replicate; cbn [length]; lia.
  - apply (f_equal fst (alloc_string_struct_reads_empty h1 (in_ptr + 24) _ Hc1'
                         ltac:(rewrite E;
                               destruct (Z.leb_spec (in_ptr + 24 + 24)
                                           (Z.of_nat (length (memory h1))));
                               [reflexivity | lia]))).
Qed.

Lemma write_then_alloc_pipeline_witness :
  let h := mkHost (replicate 80 xff) (mkAlloc 1) [] true false [] [] in
  let r1 := write_string_struct [104; 105] h in
  let r2 := alloc_string_struct (snd r1) in
  fst r1 = Ok 8 /\ fst r2 = Ok 32
  /\ fst (read_string_struct 8 (snd r2)) = Ok [104; 105]
  /\ fst (read_string_struct 32 (snd r2)) = Ok [].
Proof.
  intros h r1 r2.
  destruct (write_then_alloc_pipeline [104; 105] h (snd r1) (snd r2) 8 32
              ltac:(unfold h; simpl; lia) ltac:(vm_compute; reflexivity)
              ltac:(vm_compute; reflexivity))
    as (_ & Hin & Hout).
  split; [vm_compute; reflexivity|]. split; [vm_compute; reflexivity|].
  split; [exact Hin | exact Hout].
Defined.

(** ** Printing a written string *)

Lemma decode_replace_encode s enc : utf8_encode s = Ok enc -> decode_replace enc = s.
Proof.
  intros E. unfold decode_replace. rewrite (utf8_decode_encode Replace s enc E).
  reflexivity.
Qed.

(** X17. A string written by [write_string_struct] is logged verbatim
    when its data is handed to the write import: calling [write] with
    [fd = 1] on the struct's data pointer and length returns that length
    and appends exactly the string to the captured output (and for the
    empty string returns 0 and appends nothing). *)
Theorem write_fn_logs_written_string (s : pystr) (h h1 : host) (p : Z) :
  0 <= _ptr (alloc h) -> inst_wrapper h = true ->
  write_string_struct s h = (Ok p, h1) ->
  exists dp n,
    fst (read_i64_le p h1) = Ok dp
    /\ fst (read_i64_le (p + 8) h1) = Ok n
    /\ fst (write_fn 1 dp n h1) = Ok n
    /\ captured_stdout (snd (write_fn 1 dp n h1))
       = captured_stdout h ++ (if n =? 0 then [] else [s]).
Proof.
  intros Hc Hi Hw.
  destruct (write_string_struct_inv_state s h p h1 Hc Hw)
    as (enc & Eenc & _ & _ & _ & _ & Hcap & Hiw & _).
  destruct (write_string_struct_facts s h p h1 Hc Hw)
    as (enc' & Eenc' & (_ & _ & Pi & Pl & _ & _) & _).
  destruct (write_string_struct_holds s h p h1 Hc Hw) as (enc'' & Eenc'' & Hh & _).
  rewrite Eenc in Eenc', Eenc''. injection Eenc' as <-. injection Eenc'' as <-.
  destruct (holds_string_data _ _ _ Hh) as (dp & Pi' & Hd).
  rewrite Pi in Pi'. injection Pi' as <-.
  exists (_ptr (alloc h)), (Z.of_nat (length enc)).
  rewrite !read_i64_le_eq. cbn [fst].
  split; [exact Pi|]. split; [exact Pl|].
  rewrite write_fn_eq. rewrite Hiw, Hi. cbn [negb]. rewrite Z.eqb_refl.
  destruct (Z.eqb_spec (Z.of_nat (length enc)) 0) as [E0|_].
  - cbn [fst snd]. rewrite Hcap, app_nil_r. split; [f_equal; lia | reflexivity].
  - cbn [fst snd]. simpl_host. rewrite Hd, Hcap.
    rewrite (decode_replace_encode s enc Eenc). split; reflexivity.
Qed.

Lemma write_fn_logs_written_string_witness :
  let h := mkHost (replicate 48 xff) (mkAlloc 3) [[33]] true false [] [] in
  let h1 := snd (write_string_struct [233; 105] h) in
  fst (write_fn 1 3 3 h1) = Ok 3
  /\ captured_stdout (snd (write_fn 1 3 3 h1)) = [[33]; [233; 105]].
Proof.
  intros h h1.
  destruct (write_fn_logs_written_string [233; 105] h h1 8
              ltac:(unfold h; simpl; lia) eq_refl ltac:(vm_compute; reflexivity))
    as (dp & n & Hdp & Hn & Hr & Hlog).
  assert (dp = 3) as -> by (vm_compute in Hdp; congruence).
  assert (n = 3) as -> by (vm_compute in Hn; congruence).
  split; [exact Hr | exact Hlog].
Defined.

(** ** What reads and the write import leave alone *)

Lemma read_string_struct_state p h :
  memory (snd (read_string_struct p h)) = memory h
  /\ alloc (snd (read_string_struct p h)) = alloc h
  /\ captured_stdout (snd (read_string_struct p h)) = captured_stdout h
  /\ stderr_text (snd (read_string_struct p h)) = stderr_text h.
Proof.
  rewrite read_string_struct_decode_spec. unfold decode_spec, bind.
  rewrite read_u64_le_eq.
  destruct (peek_u64 (memory h) (p + 16)) as [cap|e]; [|repeat split].
  destruct (Z.testbit cap 63).
  - unfold ret. cbn [fst snd]. destruct (bits_56_60 cap <=? 0); repeat split.
  - cbv beta. rewrite read_i64_le_eq. simpl_host.
    destruct (peek_i64 (memory h) p) as [dp|e]; [|repeat split].
    rewrite read_i64_le_eq. simpl_host.
    destruct (peek_i64 (memory h) (p + 8)) as [len|e]; [|repeat split].
    unfold ret. cbn [fst snd]. destruct (len <=? 0); repeat split.
Qed.

Lemma read_string_struct_memory_only p h1 h2 :
  memory h1 = memory h2 ->
  fst (read_string_struct p h1) = fst (read_string_struct p h2).
Proof.
  intros Hm. rewrite !read_string_struct_decode_spec. unfold decode_spec, bind.
  rewrite !read_u64_le_eq, Hm.
  destruct (peek_u64 (memory h2) (p + 16)) as [cap|e]; [|reflexivity].
  destruct (Z.testbit cap 63).
  - unfold ret. cbn [fst snd]. destruct (bits_56_60 cap <=? 0); [reflexivity|].
    unfold read_bytes, lift. simpl_host. rewrite Hm. reflexivity.
  - cbv beta. rewrite !read_i64_le_eq. simpl_host. rewrite Hm.
    destruct (peek_i64 (memory h2) p) as [dp|e]; [|reflexivity].
    destruct (peek_i64 (memory h2) (p + 8)) as [len|e]; [|reflexivity].
    unfold ret. cbn [fst snd]. destruct (len <=? 0); [reflexivity|].
    unfold read_bytes, lift. simpl_host. rewrite Hm. reflexivity.
Qed.

(** X18. [read_string_struct] only reads: whatever it returns or
    raises, memory, the allocator, the captured output and the error
    stream are as before, and decoding the same pointer again gives the
    same result. *)
Theorem read_string_struct_read_only (p : Z) (h : host) :
  memory (snd (read_string_struct p h)) = memory h
  /\ alloc (snd (read_string_struct p h)) = alloc h
  /\ captured_stdout (snd (read_string_struct p h)) = captured_stdout h
  /\ stderr_text (snd (read_string_struct p h)) = stderr_text h
  /\ fst (read_string_struct p (snd (read_string_struct p h)))
     = fst (read_string_struct p h).
Proof.
  destruct (read_string_struct_state p h) as (Hm & Ha & Hc & Hs).
  repeat split; try assumption.
  apply read_string_struct_memory_only. exact Hm.
Qed.

(** X19. The write import never modifies guest memory or the allocator,
    whatever its arguments.  The captured output only grows, by at most
    one text per call and not at all unless [fd = 1]; the value returned
    is 0, -1 or [length]. *)
Theorem write_fn_effects (fd ptr length : Z) (h : host) :
  memory (snd (write_fn fd ptr length h)) = memory h
  /\ alloc (snd (write_fn fd ptr length h)) = alloc h
  /\ (exists suffix,
        captured_stdout (snd (write_fn fd ptr length h)) = captured_stdout h ++ suffix
        /\ (List.length suffix <= 1)%nat
        /\ (fd <> 1 -> suffix = []))
  /\ (fst (write_fn fd ptr length h) = Ok 0
      \/ fst (write_fn fd ptr length h) = Ok (-1)
      \/ fst (write_fn fd ptr length h) = Ok length).
Proof.
  rewrite write_fn_eq.
  destruct (length =? 0).
  { repeat split; [exists []; rewrite app_nil_r; repeat split; cbn; lia | auto]. }
  destruct (negb (inst_wrapper h)).
  { repeat split; [exists []; rewrite app_nil_r; repeat split; cbn; lia | auto]. }
  destruct (Z.eqb_spec fd 1).
  { repeat split; [|auto]. eexists. split; [reflexivity|]. split; [cbn; lia | congruence]. }
  destruct (fd =? 2); [destruct (stderr_closed h)|];
    (repeat split; [exists []; simpl_host; rewrite app_nil_r; repeat split; cbn; lia | auto]).
Qed.

Lemma write_fn_effects_witness :
  let h := mkHost [x68; x69] (mkAlloc 0) [] true false [] [] in
  memory (snd (write_fn 2 0 2 h)) = [x68; x69]
  /\ captured_stdout (snd (write_fn 2 0 2 h)) = []
  /\ captured_stdout (snd (write_fn 1 0 2 h)) = [[104; 105]].
Proof.
  intros h.
  destruct (write_fn_effects 2 0 2 h) as (Hm & _ & (suffix & Hs & _ & Hnil) & _).
  split; [exact Hm|]. split; [|reflexivity].
  rewrite Hs, (Hnil ltac:(lia)). reflexivity.
Defined.

(** ** Min and max imports *)

Lemma SFcompare_antisym x y :
  SFcompare y x = option_map CompOpp (SFcompare x y).
Proof.
  destruct x as [sx|sx| |sx mx ex], y as [sy|sy| |sy my ey]; cbn;
    try reflexivity; try (destruct sx; reflexivity); try (destruct sy; reflexivity);
    try (destruct sx, sy; reflexivity).
  destruct sx, sy; cbn; try reflexivity.
  - rewrite (Z.compare_antisym ex ey). destruct (ex ?= ey); cbn; try reflexivity.
    rewrite (Pos.compare_cont_antisym mx my Eq). reflexivity.
  - rewrite (Z.compare_antisym ex ey). destruct (ex ?= ey); cbn; try reflexivity.
    rewrite (Pos.compare_cont_antisym mx my Eq). reflexivity.
Qed.

Lemma SFcompare_refl x : x <> S754_nan -> SFcompare x x = Some Eq.
Proof.
  destruct x as [s|s| |s m e]; cbn; intros Hn; try reflexivity; try congruence.
  - destruct s; reflexivity.
  - destruct s; rewrite Z.compare_refl, Pos.compare_cont_refl; reflexivity.
Qed.

Lemma SFcompare_some x y :
  x <> S754_nan -> y <> S754_nan -> exists c, SFcompare x y = Some c.
Proof.
  destruct x, y; cbn; intros Hx Hy; try congruence; eauto.
Qed.

(** X20. The min and max imports together return both operands, in
    some order, and the minimum is never greater than the maximum; on
    operands that compare equal (such as +0.0 and -0.0) min returns the
    left one and max the right one.  When neither operand is NaN, min is
    below or equal to both operands and max is above or equal to both.
    The 32-bit imports behave the same. *)
Theorem fmin_fmax_order (x y : spec_float) :
  ((fmin_fn x y = x /\ fmax_fn x y = y) \/ (fmin_fn x y = y /\ fmax_fn x y = x))
  /\ float_gt (fmin_fn x y) (fmax_fn x y) = false
  /\ (SFcompare x y = Some Eq -> fmin_fn x y = x /\ fmax_fn x y = y)
  /\ (x <> S754_nan -> y <> S754_nan ->
      SFleb (fmin_fn x y) x = true /\ SFleb (fmin_fn x y) y = true
      /\ SFleb x (fmax_fn x y) = true /\ SFleb y (fmax_fn x y) = true)
  /\ fminf_fn x y = fmin_fn x y /\ fmaxf_fn x y = fmax_fn x y.
Proof.
  unfold fminf_fn, fmaxf_fn, fmin_fn, fmax_fn, float_gt, SFleb.
  pose proof (SFcompare_antisym x y) as Ha.
  split; [|split; [|split; [|split]]].
  - destruct (SFcompare x y) as [[]|]; auto.
  - destruct (SFcompare x y) as [[]|] eqn:E; try (rewrite E; reflexivity).
    rewrite Ha. reflexivity.
  - intros E. rewrite E. auto.
  - intros Hx Hy. destruct (SFcompare_some x y Hx Hy) as [c Ec].
    rewrite Ec in Ha |- *. cbn in Ha.
    destruct c; cbv beta iota;
      rewrite ?Ec, ?Ha, ?(SFcompare_refl x Hx), ?(SFcompare_refl y Hy);
      repeat split.
  - split; reflexivity.
Qed.

Lemma fmin_fmax_order_witness :
  let one := S754_finite false 4503599627370496 (-52) in
  let two := S754_finite false 4503599627370496 (-51) in
  fmin_fn two one = one /\ fmax_fn two one = two
  /\ fmin_fn (S754_zero false) (S754_zero true) = S754_zero false
  /\ fmax_fn (S754_zero false) (S754_zero true) = S754_zero true
  /\ SFleb (fmin_fn two one) two = true.
Proof.
  intros one two.
  destruct (fmin_fmax_order two one) as (_ & _ & _ & Hb & _).
  destruct (fmin_fmax_order (S754_zero false) (S754_zero true)) as (_ & _ & He & _).
  destruct (He eq_refl) as [H1 H2].
  destruct (Hb ltac:(discriminate) ltac:(discriminate)) as (H3 & _).
  split; [reflexivity|]. split; [reflexivity|].
  split; [exact H1|]. split; [exact H2 | exact H3].
Defined.

(** ** Strict decoding accepts canonical encodings only *)

Lemma byte_of_to_Z b : byte_of_Z (byte_to_Z b) = b.
Proof.
  unfold byte_of_Z, byte_to_Z. pose proof (Byte.to_N_bounded b) as Hb.
  rewrite Z.mod_small by lia. rewrite N2Z.id, Byte.of_to_N. reflexivity.
Qed.

Lemma start_byte_char b c :
  start_byte (byte_to_Z b) = LChar c -> utf8_encode_cp c = Ok [b].
Proof.
  unfold start_byte. pose proof (byte_to_Z_range b) as Hb.
  destruct (Z.ltb_spec (byte_to_Z b) 0x80) as [H1|H1].
  - intros [= <-]. unfold utf8_encode_cp. cmp. rewrite byte_of_to_Z. reflexivity.
  - repeat match goal with
           | |- context [if ?c then _ else _] => destruct c
           end; discriminate.
Qed.

Ltac name_byte b z Hz :=
  let E := fresh "E" in
  pose proof (byte_to_Z_range b) as Hz;
  pose proof (byte_of_to_Z b) as E;
  revert Hz E; generalize (byte_to_Z b); intros z Hz E; subst b.

Lemma start_byte_lead b p :
  start_byte (byte_to_Z b) = LLead p ->
  well_started (need p) [b] (acc p) (lo p) (hi p).
Proof.
  unfold start_byte. name_byte b z Hz.
  destruct (Z.ltb_spec z 0x80); [discriminate|].
  destruct (Z.ltb_spec z 0xC2); [discriminate|].
  destruct (Z.ltb_spec z 0xE0).
  { intros [= <-]. cbn [well_started need acc lo hi app].
    intros b2. name_byte b2 z2 Hz2. intros Hr2.
    unfold utf8_encode_cp. cmp.
    repeat f_equal; Z.div_mod_to_equations; lia. }
  destruct (Z.ltb_spec z 0xF0).
  { intros [= <-]. cbn [well_started need acc lo hi app].
    intros b2. name_byte b2 z2 Hz2. intros Hr2.
    intros b3. name_byte b3 z3 Hz3. intros Hr3.
    assert (Hr2' : 0x80 <= z2 <= 0xBF
                   /\ (z = 0xE0 -> 0xA0 <= z2) /\ (z = 0xED -> z2 <= 0x9F)).
    { destruct (Z.eqb_spec z 0xE0), (Z.eqb_spec z 0xED); lia. }
    clear Hr2. unfold utf8_encode_cp. cmp; cbn [andb]; try lia.
    all: repeat f_equal; Z.div_mod_to_equations; lia. }
  destruct (Z.ltb_spec z 0xF5); [|discriminate].
  intros [= <-]. cbn [well_started need acc lo hi app].
  intros b2. name_byte b2 z2 Hz2. intros Hr2.
  intros b3. name_byte b3 z3 Hz3. intros Hr3.
  intros b4. name_byte b4 z4 Hz4. intros Hr4.
  assert (Hr2' : 0x80 <= z2 <= 0xBF
                 /\ (z = 0xF0 -> 0x90 <= z2) /\ (z = 0xF4 -> z2 <= 0x8F)).
  { destruct (Z.eqb_spec z 0xF0), (Z.eqb_spec z 0xF4); lia. }
  clear Hr2. unfold utf8_encode_cp. cmp; cbn [andb]; try lia.
  all: repeat f_equal; Z.div_mod_to_equations; lia.
Qed.

Lemma utf8_decode_from_strict_inv bs : forall st s,
  utf8_decode_from Strict st bs = Ok s ->
  match st with
  | None => utf8_encode s = Ok bs
  | Some p =>
      forall pre, well_started (need p) pre (acc p) (lo p) (hi p) ->
                  utf8_encode s = Ok (pre ++ bs)
  end.
Proof.
  induction bs as [|b rest IH]; intros st s.
  - destruct st; cbn; [discriminate|]. intros [= <-]. reflexivity.
  - rewrite utf8_decode_from_cons. cbv zeta.
    assert (Hfresh : forall s0,
      match start_byte (byte_to_Z b) with
      | LChar c => result_map (cons c) (utf8_decode_from Strict None rest)
      | LInvalid => on_error Strict (utf8_decode_from Strict None rest)
      | LLead p => utf8_decode_from Strict (Some p) rest
      end = Ok s0 -> utf8_encode s0 = Ok (b :: rest)).
    { intros s0. destruct (start_byte (byte_to_Z b)) as [c| |p] eqn:Es.
      - destruct (utf8_decode_from Strict None rest) as [s'|] eqn:Ed; [|discriminate].
        intros [= <-]. cbn [utf8_encode]. rewrite (start_byte_char b c Es).
        rewrite (IH None s' Ed). reflexivity.
      - discriminate.
      - intros Ed. apply (IH (Some p) s0 Ed [b]). apply start_byte_lead. exact Es. }
    destruct st as [p|]; [|apply Hfresh].
    destruct (Z.leb_spec (lo p) (byte_to_Z b)); [|discriminate].
    destruct (Z.leb_spec (byte_to_Z b) (hi p)); [|discriminate].
    cbn [andb]. intros Hd pre Hg.
    replace (pre ++ b :: rest) with ((pre ++ [b]) ++ rest)
      by (rewrite <- app_assoc; reflexivity).
    destruct (need p) as [|n].
    + destruct (utf8_decode_from Strict None rest) as [s'|] eqn:Ed; [|discriminate].
      injection Hd as <-. cbn [utf8_encode well_started] in *.
      rewrite (Hg b ltac:(lia)), (IH None s' Ed). reflexivity.
    + apply (IH _ s Hd (pre ++ [b])). cbn [need acc lo hi].
      apply (Hg b). lia.
Qed.

Lemma utf8_encode_cp_ok_scalar c e : utf8_encode_cp c = Ok e -> is_scalar c.
Proof.
  unfold utf8_encode_cp, is_scalar.
  destruct (Z.ltb_spec c 0); [discriminate|].
  destruct (Z.ltb_spec c 0x80); [lia|]. destruct (Z.ltb_spec c 0x800); [lia|].
  destruct (Z.ltb_spec c 0x10000).
  - destruct (Z.leb_spec 0xD800 c), (Z.ltb_spec c 0xE000); cbn [andb];
      try discriminate; lia.
  - destruct (Z.ltb_spec c 0x110000); [lia | discriminate].
Qed.

Lemma utf8_encode_ok_scalar s bs : utf8_encode s = Ok bs -> Forall is_scalar s.
Proof.
  revert bs. induction s as [|c s IH]; intros bs; [constructor|].
  cbn [utf8_encode]. destruct (utf8_encode_cp c) as [e|] eqn:Ec; [|discriminate].
  destruct (utf8_encode s) as [bs'|]; [|discriminate]. intros _.
  constructor; [eapply utf8_encode_cp_ok_scalar; exact Ec | eapply IH; reflexivity].
Qed.

(** X21. Whatever [read_string_struct] returns is made of Unicode scalar
    values, and the data bytes it decoded are exactly the UTF-8 encoding
    of the returned string: overlong forms, surrogates and truncated
    sequences are never accepted.  (For a non-empty result the decoded
    bytes are those of the last [read_bytes] call.) *)
Theorem read_string_struct_canonical (p : Z) (h : host) (s : pystr) :
  fst (read_string_struct p h) = Ok s ->
  Forall is_scalar s
  /\ exists enc,
      utf8_encode s = Ok enc
      /\ (s <> [] ->
          exists dp len,
            last (mem_reads (snd (read_string_struct p h))) = Some (dp, len)
            /\ buf_getslice (memory h) dp (dp + len) = enc).
Proof.
  assert (Hkey : forall raw, utf8_decode Strict raw = Ok s ->
                             Forall is_scalar s /\ utf8_encode s = Ok raw).
  { intros raw Hd. pose proof (utf8_decode_from_strict_inv raw None s Hd) as He.
    split; [eapply utf8_encode_ok_scalar; exact He | exact He]. }
  assert (Hnil : s = [] -> Forall is_scalar s /\ exists enc, utf8_encode s = Ok enc
            /\ (s <> [] -> exists dp len,
                  last (mem_reads (snd (read_string_struct p h))) = Some (dp, len)
                  /\ buf_getslice (memory h) dp (dp + len) = enc)).
  { intros ->. split; [constructor|]. exists []. split; [reflexivity | congruence]. }
  rewrite read_string_struct_decode_spec. rewrite read_string_struct_decode_spec in Hnil.
  unfold decode_spec, bind in *. rewrite read_u64_le_eq in *.
  destruct (peek_u64 (memory h) (p + 16)) as [cap|e]; [|discriminate].
  destruct (Z.testbit cap 63).
  - unfold ret in *. cbn [fst snd] in *. destruct (bits_56_60 cap <=? 0).
    + intros [= <-]. apply Hnil. reflexivity.
    + unfold read_bytes, lift in *. revert Hnil. simpl_host. intros _ Hd.
      destruct (Hkey _ Hd) as [Hs He]. split; [exact Hs|].
      eexists. split; [exact He|]. intros _. exists p, (bits_56_60 cap).
      split; [|reflexivity].
      change (mem_reads h ++ [(p + 16, 8); (p, bits_56_60 cap)])
        with (mem_reads h ++ [(p + 16, 8)] ++ [(p, bits_56_60 cap)]).
      rewrite app_assoc. apply last_snoc.
  - cbv beta in *. rewrite read_i64_le_eq in *. revert Hnil. simpl_host.
    destruct (peek_i64 (memory h) p) as [dp|e]; [|discriminate].
    rewrite read_i64_le_eq. simpl_host.
    destruct (peek_i64 (memory h) (p + 8)) as [len|e]; [|discriminate].
    unfold ret. cbn [fst snd]. destruct (len <=? 0).
    + intros Hnil [= <-]. apply Hnil. reflexivity.
    + unfold read_bytes, lift. simpl_host. intros _ Hd.
      destruct (Hkey _ Hd) as [Hs He]. split; [exact Hs|].
      eexists. split; [exact He|]. intros _. exists dp, len.
      split; [|reflexivity].
      change (mem_reads h ++ [(p + 16, 8); (p, 8); (p + 8, 8); (dp, len)])
        with (mem_reads h ++ [(p + 16, 8); (p, 8); (p + 8, 8)] ++ [(dp, len)]).
      rewrite app_assoc. apply last_snoc.
Qed.

Lemma read_string_struct_canonical_witness :
  let heap := [x18; x00; x00; x00; x00; x00; x00; x00;
               x02; x00; x00; x00; x00; x00; x00; x00;
               x03; x00; x00; x00; x00; x00; x00; x00; x68; x69; x00] in
  let h := mkHost heap (mkAlloc 0) [] true false [] [] in
  Forall is_scalar [104; 105]
  /\ exists enc, utf8_encode [104; 105] = Ok enc /\ buf_getslice heap 24 (24 + 2) = enc.
Proof.
  intros heap h.
  destruct (read_string_struct_canonical 0 h [104; 105] ltac:(vm_compute; reflexivity))
    as (Hs & enc & He & Hd).
  split; [exact Hs|]. exists enc. split; [exact He|].
  destruct (Hd ltac:(discriminate)) as (dp & len & Hlast & Hb).
  vm_compute in Hlast. injection Hlast as <- <-. exact Hb.
Defined.

(** ** The reference gcd of the tests *)

Lemma gcd_loop_gcd a b : 0 <= a -> 0 <= b -> gcd_loop a b = Z.gcd a b.
Proof.
  funelim (gcd_loop a b); intros Ha Hb.
  - subst. rewrite Z.gcd_0_r. rewrite Z.abs_eq by exact Ha. reflexivity.
  - rewrite H; [|exact Hb | apply Z.mod_pos_bound; lia].
    rewrite Z.gcd_comm, Z.gcd_mod by exact n. apply Z.gcd_comm.
Qed.

(** X22. [_gcd] returns for all integers, and what it returns is the
    greatest common divisor of its arguments: a non-negative number that
    divides both and that every common divisor divides.  The order and
    the signs of the arguments do not matter. *)
Theorem gcd_is_gcd (a b : Z) :
  _gcd a b = Z.gcd a b
  /\ 0 <= _gcd a b
  /\ (_gcd a b | a) /\ (_gcd a b | b)
  /\ (forall d, (d | a) -> (d | b) -> (d | _gcd a b))
  /\ _gcd a b = _gcd b a /\ _gcd a b = _gcd (- a) b.
Proof.
  assert (E : forall x y, _gcd x y = Z.gcd x y).
  { intros x y. unfold _gcd. rewrite gcd_loop_gcd by apply Z.abs_nonneg.
    rewrite Z.gcd_abs_l, Z.gcd_abs_r. reflexivity. }
  rewrite !E. split; [reflexivity|]. split; [apply Z.gcd_nonneg|].
  split; [apply Z.gcd_divide_l|]. split; [apply Z.gcd_divide_r|].
  split; [intros d; apply Z.gcd_greatest|].
  split; [apply Z.gcd_comm | symmetry; apply Z.gcd_opp_l].
Qed.

Lemma gcd_is_gcd_witness :
  _gcd 12 (-18) = 6 /\ (_gcd 12 (-18) | 12) /\ (3 | _gcd 12 (-18)).
Proof.
  destruct (gcd_is_gcd 12 (-18)) as (E & _ & Hl & _ & Hg & _).
  split; [exact E|]. split; [exact Hl|].
  apply Hg; [exists 4; reflexivity | exists (-6); reflexivity].
Defined.
